(** * Sample-variance bias simulation: a shallow embedding of [simulation.py]

    The script draws random samples from the population 1..20, computes the
    variance of each sample with divisor n ([variance_n]) and with divisor
    n - 1 ([variance_n1]), and accumulates both estimates in the Streamlit
    session state.

    Numbers.  NumPy computes in binary64.  A [float64] is a rational
    extended with the IEEE special values (+inf, -inf, NaN), and the
    arithmetic is given twice.  The module [Binary64] rounds the result of
    every operation (to nearest, ties to even, with gradual underflow and
    overflow to the infinities) and adds in the order of NumPy's pairwise
    summation: what the estimators return is stated and proved there.  The
    operations [f_add], [f_mul], ... outside that module are the exact ones,
    before rounding; the state machine of the script records in its
    histories the estimates computed with them, which are the estimates of
    the code up to rounding.  The lengths of the histories, the control flow
    and the sampling do not depend on the rounding.

    Effects.  The statements of the script mutate [st.session_state] and
    consume the state of the [random] module, and they may raise.  They are
    embedded in a small state-and-exception monad over the record [world]. *)

From Stdlib Require Import QArith Qabs Qround Qpower Lia Lqa ZArith List.
From stdpp Require Import base list.
Import ListNotations.

Local Open Scope Q_scope.

(** ** The values of float64, and the exact operations on them *)

Inductive float64 : Type :=
| Finite (q : Q)
| PosInf
| NegInf
| NaN.

(** The sign of an exact rational, as the IEEE rules for infinities use it. *)
Definition Qsgn (q : Q) : comparison := q ?= 0.

Definition f_neg (a : float64) : float64 :=
  match a with
  | Finite p => Finite (- p)
  | PosInf => NegInf
  | NegInf => PosInf
  | NaN => NaN
  end.

Definition f_add (a b : float64) : float64 :=
  match a, b with
  | NaN, _ | _, NaN => NaN
  | Finite p, Finite q => Finite (p + q)
  | PosInf, NegInf | NegInf, PosInf => NaN
  | PosInf, _ | _, PosInf => PosInf
  | NegInf, _ | _, NegInf => NegInf
  end.

Definition f_sub (a b : float64) : float64 := f_add a (f_neg b).

(** An infinity of the sign [c]; [0 * inf] is NaN. *)
Definition f_signed_inf (c : comparison) : float64 :=
  match c with
  | Gt => PosInf
  | Lt => NegInf
  | Eq => NaN
  end.

Definition f_sign (a : float64) : comparison :=
  match a with
  | Finite p => Qsgn p
  | PosInf => Gt
  | NegInf => Lt
  | NaN => Eq
  end.

Definition sign_mul (c d : comparison) : comparison :=
  match c, d with
  | Eq, _ | _, Eq => Eq
  | Gt, Gt | Lt, Lt => Gt
  | Gt, Lt | Lt, Gt => Lt
  end.

Definition f_mul (a b : float64) : float64 :=
  match a, b with
  | NaN, _ | _, NaN => NaN
  | Finite p, Finite q => Finite (p * q)
  | _, _ => f_signed_inf (sign_mul (f_sign a) (f_sign b))
  end.

(** Division.  NumPy does not raise on a zero divisor: [x / 0] is an infinity
    of the sign of [x], and [0 / 0] is NaN (a RuntimeWarning is printed, the
    value is returned). *)
Definition f_div (a b : float64) : float64 :=
  match a, b with
  | NaN, _ | _, NaN => NaN
  | Finite p, Finite q =>
      if Qeq_bool q 0 then f_signed_inf (Qsgn p) else Finite (p / q)
  | Finite _, _ => Finite 0
  | _, Finite q =>
      match Qsgn q with
      | Lt => f_neg a
      | _ => a
      end
  | _, _ => NaN
  end.

(** [a <= b] on float64: false as soon as one side is NaN. *)
Definition f_le (a b : float64) : bool :=
  match a, b with
  | NaN, _ | _, NaN => false
  | Finite p, Finite q => Qle_bool p q
  | NegInf, _ | _, PosInf => true
  | _, _ => false
  end.

(** Two float64 hold the same value (NaN is the same value as NaN here: this
    is identity of results, not the IEEE comparison [==]). *)
Definition f_same (a b : float64) : Prop :=
  match a, b with
  | Finite p, Finite q => p == q
  | PosInf, PosInf | NegInf, NegInf | NaN, NaN => True
  | _, _ => False
  end.

Definition of_int (z : Z) : float64 := Finite (inject_Z z).

(** ** The NumPy functions the script calls, in exact arithmetic

    The functions of this part compute without rounding; their names are
    those of the code.  The module [Binary64] below gives them again with
    every operation rounded. *)

(** [np.array(x)] for a Python list of (finite) numbers. *)
Definition np_array (x : list Q) : list float64 := map Finite x.

(** [np.sum(a)]: the reduction of [+] from 0. *)
Definition np_sum (a : list float64) : float64 := fold_left f_add a (Finite 0).

(** [np.mean(a)]: the sum divided by the number of elements. *)
Definition np_mean (a : list float64) : float64 :=
  f_div (np_sum a) (of_int (Z.of_nat (length a))).

(** [a - m] and [a ** 2] on arrays, element by element. *)
Definition np_sub_scalar (a : list float64) (m : float64) : list float64 :=
  map (fun v => f_sub v m) a.

Definition np_square (a : list float64) : list float64 :=
  map (fun v => f_mul v v) a.

(** [np.var(a)] with the default [ddof = 0]. *)
Definition np_var (a : list float64) : float64 :=
  np_mean (np_square (np_sub_scalar a (np_mean a))).

(** ** Python values, exceptions and the [/] operator *)

Inductive exn : Type :=
| ZeroDivisionError
| ValueError
| IndexError.

Inductive result (A : Type) : Type :=
| Ok (a : A)
| Raise (e : exn).
Arguments Ok {A} a.
Arguments Raise {A} e.

(** The numbers the script divides: Python ints, Python floats and NumPy
    float64 scalars ([np.sum] and [np.mean] return the latter). *)
Inductive pynum : Type :=
| PyInt (z : Z)
| PyFloat (f : float64)
| NpFloat64 (f : float64).

Definition as_float64 (v : pynum) : float64 :=
  match v with
  | PyInt z => of_int z
  | PyFloat f => f
  | NpFloat64 f => f
  end.

Definition is_zero (f : float64) : bool :=
  match f with
  | Finite q => Qeq_bool q 0
  | _ => false
  end.

(** [a / b].  As soon as one operand is a NumPy scalar the division is
    NumPy's: it returns a float64 and never raises.  Between Python numbers a
    zero divisor raises ZeroDivisionError. *)
Definition py_truediv (a b : pynum) : result pynum :=
  match a, b with
  | NpFloat64 x, _ => Ok (NpFloat64 (f_div x (as_float64 b)))
  | _, NpFloat64 y => Ok (NpFloat64 (f_div (as_float64 a) y))
  | _, _ =>
      if is_zero (as_float64 b) then Raise ZeroDivisionError
      else Ok (PyFloat (f_div (as_float64 a) (as_float64 b)))
  end.

(** ** The two estimators (simulation.py, lines 105-111), in exact
    arithmetic

    On the samples of the loop (2 to 10 ints of 1..20) the call of line 111
    divides a NumPy float64 by a positive Python int and does not raise. *)

Definition variance_n (x : list Q) : pynum :=
  let m := np_mean (np_array x) in
  NpFloat64 (np_mean (np_square (np_sub_scalar (np_array x) m))).

Definition variance_n1 (x : list Q) : result pynum :=
  let m := np_mean (np_array x) in
  py_truediv (NpFloat64 (np_sum (np_square (np_sub_scalar (np_array x) m))))
             (PyInt (Z.of_nat (length x) - 1)).

(** ** The estimators as the specification words them, over exact rationals *)

Module Spec.

Definition total (l : list Q) : Q := fold_right Qplus 0 l.

Definition size (l : list Q) : Q := inject_Z (Z.of_nat (length l)).

Definition sample_mean (l : list Q) : Q := total l / size l.

(** Sum of squared deviations from the sample mean. *)
Definition squared_deviations (l : list Q) : Q :=
  total (map (fun v => (v - sample_mean l) ^ 2) l).

Definition variance_biased (l : list Q) : Q :=
  squared_deviations l / size l.

Definition variance_unbiased (l : list Q) : Q :=
  squared_deviations l / (size l - 1).

(** All the values of the sample are the same number. *)
Definition all_identical (l : list Q) : Prop :=
  forall a b, In a l -> In b l -> a == b.

End Spec.

(** ** The state of a running script *)

(** The module globals bound at lines 84-85, the three entries of
    [st.session_state] (lines 97-100), and the state of the [random] module:
    an endless tape of raw draws, of which [rng w 0] is the next one. *)
Record world : Type := World {
  population : list Z;
  true_variance : float64;
  running : bool;
  var_n : list pynum;
  var_n1 : list pynum;
  rng : nat -> nat
}.

Definition set_running (b : bool) (w : world) : world :=
  World (population w) (true_variance w) b (var_n w) (var_n1 w) (rng w).

Definition set_var_n (l : list pynum) (w : world) : world :=
  World (population w) (true_variance w) (running w) l (var_n1 w) (rng w).

Definition set_var_n1 (l : list pynum) (w : world) : world :=
  World (population w) (true_variance w) (running w) (var_n w) l (rng w).

Definition set_population (p : list Z) (w : world) : world :=
  World p (true_variance w) (running w) (var_n w) (var_n1 w) (rng w).

Definition set_true_variance (v : float64) (w : world) : world :=
  World (population w) v (running w) (var_n w) (var_n1 w) (rng w).

Definition set_rng (g : nat -> nat) (w : world) : world :=
  World (population w) (true_variance w) (running w) (var_n w) (var_n1 w) g.

(** ** Statements: state and exceptions *)

(** A statement runs in a world and ends normally or by an exception; in both
    cases the mutations done so far stay (the session state is not rolled
    back when a run dies). *)
Definition M (A : Type) : Type := world -> result A * world.

Definition ret {A : Type} (a : A) : M A := fun w => (Ok a, w).

Definition bind {A B : Type} (m : M A) (k : A -> M B) : M B :=
  fun w =>
    match m w with
    | (Ok a, w') => k a w'
    | (Raise e, w') => (Raise e, w')
    end.

Definition raise {A : Type} (e : exn) : M A := fun w => (Raise e, w).

Definition lift {A : Type} (r : result A) : M A := fun w => (r, w).

Definition get : M world := fun w => (Ok w, w).

Definition modify (f : world -> world) : M unit := fun w => (Ok tt, f w).

Notation "x <~ m ;; k" := (bind m (fun x => k))
  (at level 90, m at level 89, right associativity).
Notation "m ;;; k" := (bind m (fun _ => k))
  (at level 90, right associativity).

(** ** The [random] module *)

(** [_randbelow(n)]: the next value of the tape, reduced into [0, n).
    CPython draws by rejection ([randbelow_with_getrandbits] below); a call
    consumes here one value of the tape, whose residue is what the call
    returns.  Every value below [n] is returned on some tape, and the
    theorems on the sampling hold on every tape. *)
Definition randbelow (n : nat) : M nat :=
  fun w => (Ok (rng w 0%nat mod n)%nat, set_rng (fun i => rng w (S i)) w).

(** [random.randint(a, b)] is [a + _randbelow(b - a + 1)]; an empty range
    raises ValueError. *)
Definition randint (a b : Z) : M Z :=
  if (b - a + 1 <=? 0)%Z then raise ValueError
  else r <~ randbelow (Z.to_nat (b - a + 1)) ;; ret (a + Z.of_nat r)%Z.

(** The selection loop of [random.sample] on a pool (the branch CPython takes
    for a population of at most 21 elements).  At step [i]:
    [j = randbelow(n - i); result[i] = pool[j]; pool[j] = pool[n - i - 1]].
    The slots of [result] are filled in the order 0, 1, ..., so filling slot
    [i] is written as appending. *)
Fixpoint sample_loop (steps i n : nat) (pool result : list Z) : M (list Z) :=
  match steps with
  | O => ret result
  | S steps' =>
      j <~ randbelow (n - i) ;;
      match pool !! j, pool !! (n - i - 1)%nat with
      | Some picked, Some last =>
          sample_loop steps' (S i) n (<[j := last]> pool) (result ++ [picked])
      | _, _ => raise IndexError
      end
  end.

(** [random.sample(population, k)]: ValueError unless [0 <= k <= n]. *)
Definition random_sample (pop : list Z) (k : Z) : M (list Z) :=
  let n := length pop in
  if ((0 <=? k) && (k <=? Z.of_nat n))%Z
  then sample_loop (Z.to_nat k) 0 n pop []
  else raise ValueError.

(** ** The script *)

(** [list(range(lo, hi))]. *)
Definition py_range (lo hi : Z) : list Z :=
  map (fun i => (lo + Z.of_nat i)%Z) (seq 0 (Z.to_nat (hi - lo))).

(** [np.array] of a list of Python ints. *)
Definition ints (l : list Z) : list Q := map inject_Z l.

(** Lines 84-85, executed at the top of every run of the script. *)
Definition script_top : M unit :=
  modify (set_population (py_range 1 21)) ;;;
  w <~ get ;;
  modify (set_true_variance (np_var (np_array (ints (population w))))).

(** The world after lines 84-100 of the first run of a session: the key
    ["running"] is not yet in the session state, which is initialised. *)
Definition initial_state (gen : nat -> nat) : world :=
  let pop := py_range 1 21 in
  World pop (np_var (np_array (ints pop))) false [] [] gen.

(** Lines 121-122: the Start / Pause button. *)
Definition toggle_run : M unit :=
  w <~ get ;; modify (set_running (negb (running w))).

(** Lines 125-128: the Clear / Reset button. *)
Definition reset : M unit :=
  modify (set_running false) ;;;
  modify (set_var_n []) ;;;
  modify (set_var_n1 []).

(** Lines 178-179: the size and the sample of one iteration. *)
Definition draw_sample : M (list Z) :=
  n <~ randint 2 10 ;;
  w <~ get ;;
  random_sample (population w) n.

(** Lines 180-181: both estimates are appended to their histories.
    (Line 182 plots, see [plot_simulation] and [plotting_loop]; line 183
    sleeps.) *)
Definition record_estimates (sample : list Z) : M unit :=
  w <~ get ;;
  modify (set_var_n (var_n w ++ [variance_n (ints sample)])) ;;;
  v <~ lift (variance_n1 (ints sample)) ;;
  w' <~ get ;;
  modify (set_var_n1 (var_n1 w' ++ [v])).

Definition loop_body : M unit :=
  sample <~ draw_sample ;; record_estimates sample.

(** Lines 177-181, [while st.session_state.running: ...], without the call
    of line 182: what [iterations] passes of the loop do to the state.  The
    body never clears the flag.  The loop with its plots is [plotting_loop]
    below: there the call of line 182 ends the run in the first pass. *)
Fixpoint simulation_loop (iterations : nat) : M unit :=
  match iterations with
  | O => ret tt
  | S k =>
      w <~ get ;;
      if running w then loop_body ;;; simulation_loop k else ret tt
  end.

(** What the user did to cause a run of the script. *)
Inductive click : Type :=
| NoClick
| StartPause
| ClearReset.

(** What one run of the script does to the state when its loop makes
    [iterations] passes, the plots left out; [whole_script_run] below is the
    run with the plots. *)
Definition script_run (c : click) (iterations : nat) : M unit :=
  script_top ;;;
  match c with
  | NoClick => ret tt
  | StartPause => toggle_run
  | ClearReset => reset
  end ;;;
  simulation_loop iterations.

(** The operations on the simulation state; [perform] is their effect on
    the state, the plots left out, and [step] below performs them with the
    plots. *)
Inductive action : Type :=
| Toggle
| Reset
| Iteration.

Definition perform (a : action) : M unit :=
  match a with
  | Toggle => toggle_run
  | Reset => reset
  | Iteration => simulation_loop 1
  end.

Fixpoint perform_all (l : list action) : M unit :=
  match l with
  | [] => ret tt
  | a :: l' => perform a ;;; perform_all l'
  end.

(** The state a statement leaves, and how it ended. *)
Definition exec {A : Type} (m : M A) (w : world) : world := snd (m w).
Definition outcome {A : Type} (m : M A) (w : world) : result A := fst (m w).

(** The two histories have the same length. *)
Definition balanced (w : world) : Prop := length (var_n w) = length (var_n1 w).

(** The population holds enough values for every sample size of the loop. *)
Definition populated (w : world) : Prop := (10 <= length (population w))%nat.


(** ** The estimates of the loop *)

(** The two estimates of one sample of distinct values: finite, and
    [0 < biased < unbiased]. *)
Definition strict_estimates (b u : pynum) : Prop :=
  exists p q : Q,
    b = NpFloat64 (Finite p) /\ u = NpFloat64 (Finite q) /\ 0 < p /\ p < q.

(** ** The plots, and the whole script *)

(** Line 4 binds the name [plt] to the package [matplotlib], not to its
    module [pyplot].  The package has no attribute [subplots]: the lookup
    [plt.subplots] of line 143 raises AttributeError. *)
Inductive script_exn : Type :=
| CoreError (e : exn)
| AttributeError.

(** How a statement of the whole script, or a run of it, ends. *)
Inductive ending : Type :=
| Finished
| Interrupted
| Died (e : script_exn).

(** Lines 139-172.  With an empty history the function returns at line 141.
    Otherwise line 143 raises, and lines 146-172 are never reached.  The
    function mutates nothing. *)
Definition plot_simulation (w : world) : ending :=
  if (length (var_n w) =? 0)%nat then Finished else Died AttributeError.

(** A statement of the simulation, then the rest of the run. *)
Definition and_then (m : M unit) (k : world -> ending * world) (w : world)
  : ending * world :=
  match m w with
  | (Ok _, w') => k w'
  | (Raise e, w') => (Died (CoreError e), w')
  end.

(** Lines 177-183 with the call of line 182.  [iterations] passes are granted
    before Streamlit interrupts the run. *)
Fixpoint plotting_loop (iterations : nat) (w : world) : ending * world :=
  if running w then
    match iterations with
    | O => (Interrupted, w)
    | S k =>
        and_then loop_body
          (fun w' =>
             match plot_simulation w' with
             | Finished => plotting_loop k w'
             | other => (other, w')
             end) w
    end
  else (Finished, w).

(** Lines 121-128: at most one of the two buttons is clicked in a run. *)
Definition click_handler (c : click) : M unit :=
  match c with
  | NoClick => ret tt
  | StartPause => toggle_run
  | ClearReset => reset
  end.

(** One run of the whole script: the top, the buttons, the loop, and, when
    the loop is left by its guard, the call of line 188. *)
Definition whole_script_run (c : click) (iterations : nat) : world -> ending * world :=
  and_then script_top
    (and_then (click_handler c)
       (fun w =>
          match plotting_loop iterations w with
          | (Finished, w') => (plot_simulation w', w')
          | (other, w') => (other, w')
          end)).

(** The successive runs of a session; the session state outlives a run that
    died. *)
Fixpoint whole_session (runs : list (click * nat)) (w : world)
  : list ending * world :=
  match runs with
  | [] => ([], w)
  | (c, iterations) :: runs' =>
      let (e, w1) := whole_script_run c iterations w in
      let (es, w2) := whole_session runs' w1 in
      (e :: es, w2)
  end.



(** ** Binary64: the estimators with every operation rounded *)

(** The definitions above compute with exact rationals.  NumPy computes in
    binary64: every operation returns the exact result rounded to the nearest
    value with a 53-bit significand, ties to even, with gradual underflow
    below 2^-1022 and overflow to an infinity from 2^1024 - 2^970 on.  This
    module models that: a binary64 value is a [float64] left unchanged by
    [round64], and an operation is the exact operation followed by [round64].
    The sign of zero is not modelled (-0.0 and 0.0 are the same value). *)
Module Binary64.

(** [floor (log2 q)] for [q > 0]. *)
Definition binade (q : Q) : Z :=
  let k := (Z.log2 (Qnum q) - Z.log2 (Zpos (Qden q)))%Z in
  if Qle_bool (2 ^ k) q then k else (k - 1)%Z.

(** Rounding to the nearest integer, ties to even. *)
Definition rne (x : Q) : Z :=
  let k := Qfloor x in
  match Qcompare (x - inject_Z k) (1 # 2) with
  | Lt => k
  | Gt => (k + 1)%Z
  | Eq => if Z.even k then k else (k + 1)%Z
  end.

(** The exponent of the last place of the binary64 values around [q]. *)
Definition ulp_exponent (q : Q) : Z := Z.max (binade (Qabs q) - 52) (-1074).

(** The multiple of [2 ^ t] nearest to [q]. *)
Definition round_at (t : Z) (q : Q) : Q :=
  Qred (inject_Z (rne (q / 2 ^ t)) * 2 ^ t).

Definition round_finite (q : Q) : float64 :=
  if Qeq_bool q 0 then Finite 0
  else
    let r := round_at (ulp_exponent q) q in
    if Qle_bool (2 ^ 1024) (Qabs r)
    then (if Qle_bool 0 q then PosInf else NegInf)
    else Finite r.

Definition round64 (a : float64) : float64 :=
  match a with
  | Finite q => round_finite q
  | _ => a
  end.

Definition add (a b : float64) : float64 := round64 (f_add a b).
Definition sub (a b : float64) : float64 := round64 (f_sub a b).
Definition mul (a b : float64) : float64 := round64 (f_mul a b).
Definition div (a b : float64) : float64 := round64 (f_div a b).

(** The conversion of a machine integer ([len(x)], an int64 element). *)
Definition of_Z (z : Z) : float64 := round64 (of_int z).

(** A value that is not negative: a finite one at least 0, or +inf. *)
Definition nonneg (a : float64) : Prop :=
  a = PosInf \/ exists q : Q, a = Finite q /\ 0 <= q.

Definition finite (a : float64) : Prop := exists q : Q, a = Finite q.

(** A value that is not below zero: not negative, or not a number. *)
Definition not_negative (a : float64) : Prop := nonneg a \/ a = NaN.

(** *** NumPy's summation *)

(** [r[j] += a[i + j]] for the eight lanes. *)
Fixpoint add_lanes (r block : list float64) : list float64 :=
  match r, block with
  | x :: r', y :: block' => add x y :: add_lanes r' block'
  | _, _ => r
  end.

(** The unrolled loop: whole blocks of eight values are added to the lanes;
    what is left (fewer than eight values) is returned with the lanes. *)
Fixpoint lanes_loop (r a : list float64) : list float64 * list float64 :=
  match a with
  | x0 :: x1 :: x2 :: x3 :: x4 :: x5 :: x6 :: x7 :: rest =>
      lanes_loop (add_lanes r [x0; x1; x2; x3; x4; x5; x6; x7]) rest
  | _ => (r, a)
  end.

(** [((r0 + r1) + (r2 + r3)) + ((r4 + r5) + (r6 + r7))].  (The lanes are
    always eight; the last case is never reached.) *)
Definition combine_lanes (r : list float64) : float64 :=
  match r with
  | [r0; r1; r2; r3; r4; r5; r6; r7] =>
      add (add (add r0 r1) (add r2 r3)) (add (add r4 r5) (add r6 r7))
  | _ => fold_left add r (Finite 0)
  end.

(** A block of 8 to 128 values: the lanes start as the first eight values. *)
Definition block_sum (a : list float64) : float64 :=
  let (r, rest) := lanes_loop (take 8 a) (drop 8 a) in
  fold_left add rest (combine_lanes r).

(** [pairwise_sum]: fewer than 8 values are added one by one from 0, up to
    128 values go through the lanes, more are split in two halves (the first
    a multiple of 8 long).  [fuel] bounds the depth of the splitting; the
    length of the list is always enough. *)
Fixpoint pairwise_sum (fuel : nat) (a : list float64) : float64 :=
  let n := length a in
  if (n <? 8)%nat then fold_left add a (Finite 0)
  else if (n <=? 128)%nat then block_sum a
  else
    match fuel with
    | O => block_sum a
    | S fuel' =>
        let n2 := (n / 2 - (n / 2) mod 8)%nat in
        add (pairwise_sum fuel' (take n2 a)) (pairwise_sum fuel' (drop n2 a))
    end.

(** [np.sum(a)], [np.add.reduce(a)]: the result starts as 0.0 and the
    pairwise sum of the array is added to it. *)
Definition np_sum (a : list float64) : float64 :=
  add (Finite 0) (pairwise_sum (length a) a).

(** [np.mean(a)] on a float64 array. *)
Definition np_mean (a : list float64) : float64 :=
  div (np_sum a) (of_Z (Z.of_nat (length a))).

Definition np_sub_scalar (a : list float64) (m : float64) : list float64 :=
  map (fun v => sub v m) a.

Definition np_square (a : list float64) : list float64 :=
  map (fun v => mul v v) a.

(** [np.var(a)] with the default [ddof = 0]: the mean of the array, the
    deviations from it, their products with themselves, and the mean of
    these. *)
Definition np_var (a : list float64) : float64 :=
  np_mean (np_square (np_sub_scalar a (np_mean a))).

(** *** The estimators as the specification words them, in binary64 *)

Definition sample_mean (a : list float64) : float64 :=
  div (np_sum a) (of_Z (Z.of_nat (length a))).

(** The sum of the squared deviations from the sample mean. *)
Definition squared_deviations (a : list float64) : float64 :=
  np_sum (map (fun v => mul (sub v (sample_mean a)) (sub v (sample_mean a))) a).

Definition variance_biased (a : list float64) : float64 :=
  div (squared_deviations a) (of_Z (Z.of_nat (length a))).

Definition variance_unbiased (a : list float64) : float64 :=
  div (squared_deviations a) (of_Z (Z.of_nat (length a) - 1)).

(** *** Python numbers and the arrays NumPy makes of them *)

(** An element of a sample: a Python int, or a Python float (given by the
    number it is nearest to, as a literal is). *)
Inductive number : Type :=
| Int (z : Z)
| Float (f : float64).

Definition is_int (v : number) : bool :=
  match v with
  | Int _ => true
  | Float _ => false
  end.

Definition fits_int64 (z : Z) : bool :=
  ((- 2 ^ 63 <=? z) && (z <? 2 ^ 63))%Z.

(** The binary64 value the computations see for an element: an int of an
    int64 array is converted, a float is itself.  [None] for an int that does
    not fit 64 bits. *)
Definition stored (v : number) : option float64 :=
  match v with
  | Int z => if fits_int64 z then Some (of_Z z) else None
  | Float f => Some (round64 f)
  end.

Fixpoint stored_all (x : list number) : option (list float64) :=
  match x with
  | [] => Some []
  | v :: x' =>
      match stored v, stored_all x' with
      | Some f, Some a => Some (f :: a)
      | _, _ => None
      end
  end.

(** [np.array(x)] as the float64 computations see it.  [None] where NumPy
    works otherwise, which this module does not model: an int beyond 64 bits
    (the array holds Python objects, and the arithmetic is Python's), and a
    list of more than 8192 ints (the conversion to float64 is buffered, and
    the sum is taken buffer by buffer).  No list has 2^63 elements. *)
Definition np_array (x : list number) : option (list float64) :=
  if forallb is_int x && (8192 <? Z.of_nat (length x))%Z then None
  else if (2 ^ 63 <=? Z.of_nat (length x))%Z then None
  else stored_all x.

(** What a call does: it returns a float64, or it leaves the part of NumPy
    that is modelled (where the arithmetic is Python's, a call may raise). *)
Inductive outcome : Type :=
| Returns (v : float64)
| Unmodelled.

(** Lines 105-107. *)
Definition variance_n (x : list number) : outcome :=
  match np_array x with
  | Some a =>
      let m := np_mean a in
      Returns (np_mean (np_square (np_sub_scalar a m)))
  | None => Unmodelled
  end.

(** Line 111 divides a NumPy float64 by a Python int: the division is
    NumPy's, and a zero divisor gives NaN or an infinity, not an exception. *)
Definition variance_n1 (x : list number) : outcome :=
  match np_array x with
  | Some a =>
      let m := np_mean a in
      Returns (div (np_sum (np_square (np_sub_scalar a m)))
                 (of_Z (Z.of_nat (length x) - 1)))
  | None => Unmodelled
  end.

End Binary64.

(** ** The operations of the simulation, with the plots *)

(** One operation on the session state, as the script performs it.  An
    iteration is one pass of the loop: the guard of line 177, lines 178-181,
    and the call of line 182 (line 183 only sleeps). *)
Definition step (a : action) (w : world) : ending * world :=
  match a with
  | Toggle => and_then toggle_run (fun w' => (Finished, w')) w
  | Reset => and_then reset (fun w' => (Finished, w')) w
  | Iteration =>
      if running w
      then and_then loop_body (fun w' => (plot_simulation w', w')) w
      else (Finished, w)
  end.

(** A sequence of operations.  The session state outlives an operation that
    died: Streamlit reports the exception, and the next event reruns the
    script on the state as it was left. *)
Fixpoint steps (l : list action) (w : world) : list ending * world :=
  match l with
  | [] => ([], w)
  | a :: l' =>
      let (e, w1) := step a w in
      let (es, w2) := steps l' w1 in
      (e :: es, w2)
  end.

(** ** The sample size, as CPython draws it *)









(** ** Exact sums *)

Section ExactSums.

Import Spec.

Lemma fold_left_Qplus_total (l : list Q) (acc : Q) :
  fold_left Qplus l acc == acc + total l.
Proof.
  revert acc. induction l as [|v l IH]; intros acc; simpl.
  - ring.
  - rewrite IH. ring.
Qed.

Lemma total_map_ext (f g : Q -> Q) (l : list Q) :
  (forall v, f v == g v) -> total (map f l) == total (map g l).
Proof.
  intros Hfg. induction l as [|v l IH]; simpl.
  - reflexivity.
  - rewrite IH, (Hfg v). reflexivity.
Qed.

Lemma total_squares_nonneg (f : Q -> Q) (l : list Q) :
  0 <= total (map (fun v => f v ^ 2) l).
Proof.
  induction l as [|v l IH]; cbn [map total fold_right].
  - apply Qle_refl.
  - fold (total (map (fun v => f v ^ 2) l)).
    assert (H : 0 <= f v ^ 2) by nra. lra.
Qed.

Lemma total_squares_zero (f : Q -> Q) (l : list Q) :
  total (map (fun v => f v ^ 2) l) == 0 <-> (forall v, In v l -> f v == 0).
Proof.
  induction l as [|v l IH]; cbn [map total fold_right In].
  - split; [intros _ w [] | reflexivity].
  - fold (total (map (fun v => f v ^ 2) l)).
    pose proof (total_squares_nonneg f l) as Hl.
    assert (Hv : 0 <= f v ^ 2) by nra.
    split.
    + intros Hs w [<- | Hw].
      * assert (Hz : f v ^ 2 == 0) by lra. nra.
      * apply IH; [lra | exact Hw].
    + intros Hall.
      assert (H1 : f v == 0) by (apply Hall; now left).
      assert (H2 : total (map (fun v => f v ^ 2) l) == 0)
        by (apply IH; intros w Hw; apply Hall; now right).
      rewrite H2, H1. ring.
Qed.

Lemma size_cons (v : Q) (l : list Q) : size (v :: l) == 1 + size l.
Proof.
  unfold size. cbn [length]. rewrite Nat2Z.inj_succ. unfold Z.succ.
  rewrite inject_Z_plus. change (inject_Z 1) with 1. ring.
Qed.

Lemma total_constant (a : Q) (l : list Q) :
  (forall v, In v l -> v == a) -> total l == size l * a.
Proof.
  induction l as [|v l IH]; intros Hall.
  - unfold size. simpl. ring.
  - change (total (v :: l)) with (v + total l).
    rewrite size_cons, IH by (intros w Hw; apply Hall; now right).
    rewrite (Hall v) by now left. ring.
Qed.

Lemma size_pos (l : list Q) : l <> [] -> 0 < size l.
Proof.
  intros Hl. unfold size. destruct l as [|v l]; [congruence|].
  change 0 with (inject_Z 0). rewrite <- Zlt_Qlt. simpl length. lia.
Qed.

Lemma size_ge_2 (l : list Q) : (2 <= length l)%nat -> 2 <= size l.
Proof.
  intros Hl. unfold size. change 2 with (inject_Z 2).
  rewrite <- Zle_Qle. lia.
Qed.

Lemma squared_deviations_nonneg (l : list Q) : 0 <= squared_deviations l.
Proof. apply (total_squares_nonneg (fun v => v - sample_mean l)). Qed.

(** The sum of squares vanishes exactly on the constant samples. *)
Lemma squared_deviations_zero (l : list Q) :
  l <> [] -> (squared_deviations l == 0 <-> all_identical l).
Proof.
  intros Hl. unfold squared_deviations.
  rewrite (total_squares_zero (fun v => v - sample_mean l)).
  split.
  - intros Hdev a b Ha Hb.
    pose proof (Hdev a Ha). pose proof (Hdev b Hb). lra.
  - intros Hid. destruct l as [|a l]; [congruence|].
    assert (Hm : sample_mean (a :: l) == a).
    { unfold sample_mean.
      rewrite (total_constant a) by (intros w Hw; apply Hid; [exact Hw | now left]).
      pose proof (size_pos (a :: l) Hl). field. lra. }
    intros v Hv. rewrite Hm. rewrite (Hid v a Hv) by now left. ring.
Qed.

End ExactSums.

(** ** The NumPy functions on finite arrays *)

Section FiniteArrays.

Import Spec.

Lemma fold_f_add_finite (l : list Q) (acc : Q) :
  fold_left f_add (np_array l) (Finite acc) = Finite (fold_left Qplus l acc).
Proof.
  revert acc. induction l as [|v l IH]; intros acc; [reflexivity|].
  cbn [np_array map fold_left f_add]. apply IH.
Qed.

Lemma np_sum_finite (l : list Q) :
  np_sum (np_array l) = Finite (fold_left Qplus l 0).
Proof. apply fold_f_add_finite. Qed.

Lemma length_np_array (l : list Q) : length (np_array l) = length l.
Proof. apply length_map. Qed.

Lemma size_nonzero (l : list Q) : l <> [] -> Qeq_bool (size l) 0 = false.
Proof.
  intros Hl. destruct (Qeq_bool (size l) 0) eqn:E; [|reflexivity].
  apply Qeq_bool_eq in E. pose proof (size_pos l Hl). lra.
Qed.

Lemma np_mean_finite (l : list Q) :
  l <> [] -> np_mean (np_array l) = Finite (fold_left Qplus l 0 / size l).
Proof.
  intros Hl. unfold np_mean. rewrite np_sum_finite, length_np_array.
  unfold of_int. fold (size l). cbn [f_div]. now rewrite size_nonzero.
Qed.

Lemma np_sub_scalar_finite (l : list Q) (m : Q) :
  np_sub_scalar (np_array l) (Finite m) = np_array (map (fun v => v + - m) l).
Proof. unfold np_sub_scalar, np_array. rewrite !map_map. reflexivity. Qed.

Lemma np_square_finite (l : list Q) :
  np_square (np_array l) = np_array (map (fun v => v * v) l).
Proof. unfold np_square, np_array. rewrite !map_map. reflexivity. Qed.

(** The array both estimators sum: [(np.array(x) - np.mean(x)) ** 2]. *)
Lemma squares_finite (l : list Q) :
  l <> [] ->
  exists sq : list Q,
    np_square (np_sub_scalar (np_array l) (np_mean (np_array l))) = np_array sq
    /\ length sq = length l
    /\ fold_left Qplus sq 0 == squared_deviations l.
Proof.
  intros Hl. rewrite (np_mean_finite l Hl), np_sub_scalar_finite, np_square_finite.
  eexists. split; [reflexivity|]. split; [now rewrite !length_map|].
  rewrite fold_left_Qplus_total, map_map. unfold squared_deviations.
  rewrite Qplus_0_l. apply total_map_ext. intros v.
  assert (Hm : fold_left Qplus l 0 / size l == sample_mean l).
  { unfold sample_mean. rewrite fold_left_Qplus_total, Qplus_0_l. reflexivity. }
  rewrite Hm. ring.
Qed.

End FiniteArrays.

(** ** What the two estimators return *)

Section Estimators.

Import Spec.

Lemma nonempty_of_length (A : Type) (l : list A) : (1 <= length l)%nat -> l <> [].
Proof. destruct l; simpl; [lia | congruence]. Qed.

Lemma size_of_length (l l' : list Q) : length l = length l' -> size l = size l'.
Proof. unfold size. now intros ->. Qed.

Lemma variance_n_value (l : list Q) :
  l <> [] ->
  exists b : Q, variance_n l = NpFloat64 (Finite b) /\ b == variance_biased l.
Proof.
  intros Hl. unfold variance_n. cbv zeta.
  destruct (squares_finite l Hl) as (sq & E & Hlen & Hsum). rewrite E.
  assert (Hsq : sq <> []) by (intros ->; destruct l; [congruence | discriminate]).
  rewrite (np_mean_finite sq Hsq). eexists. split; [reflexivity|].
  unfold variance_biased. rewrite Hsum, (size_of_length sq l Hlen). reflexivity.
Qed.

Lemma pred_size (l : list Q) :
  inject_Z (Z.of_nat (length l) - 1) == size l - 1.
Proof.
  unfold size, Z.sub. rewrite inject_Z_plus, inject_Z_opp.
  change (inject_Z 1) with 1. ring.
Qed.

Lemma variance_n1_value (l : list Q) :
  (2 <= length l)%nat ->
  exists u : Q,
    variance_n1 l = Ok (NpFloat64 (Finite u)) /\ u == variance_unbiased l.
Proof.
  intros Hn. assert (Hl : l <> []) by (apply nonempty_of_length; lia).
  unfold variance_n1. cbv zeta.
  destruct (squares_finite l Hl) as (sq & E & Hlen & Hsum).
  rewrite E, np_sum_finite. cbn [py_truediv as_float64 of_int f_div].
  assert (Hd : Qeq_bool (inject_Z (Z.of_nat (length l) - 1)) 0 = false).
  { destruct (Qeq_bool _ 0) eqn:Eb; [|reflexivity].
    apply Qeq_bool_eq in Eb. rewrite pred_size in Eb.
    pose proof (size_ge_2 l Hn). lra. }
  rewrite Hd. eexists. split; [reflexivity|].
  unfold variance_unbiased. rewrite Hsum, pred_size. reflexivity.
Qed.

(** [np.var] computes what [variance_n] computes. *)
Lemma np_var_value (l : list Q) :
  l <> [] ->
  exists b : Q, np_var (np_array l) = Finite b /\ b == variance_biased l.
Proof.
  intros Hl. destruct (variance_n_value l Hl) as (b & E & Hb).
  exists b. split; [|exact Hb].
  change (variance_n l) with (NpFloat64 (np_var (np_array l))) in E.
  now injection E.
Qed.

(** The division of line 111 is NumPy's: whatever the sample, the call
    returns a float64. *)
Lemma variance_n1_returns (l : list Q) :
  exists u : float64, variance_n1 l = Ok (NpFloat64 u).
Proof. unfold variance_n1, py_truediv. cbv zeta. eexists. reflexivity. Qed.

(** Facts of exact arithmetic on the two quotients. *)

Lemma biased_le_unbiased (l : list Q) :
  (2 <= length l)%nat -> variance_biased l <= variance_unbiased l.
Proof.
  intros Hn. pose proof (size_ge_2 l Hn) as H2.
  pose proof (squared_deviations_nonneg l) as HS.
  unfold variance_biased, variance_unbiased.
  apply Qle_shift_div_l; [lra|].
  assert (E : squared_deviations l / size l * (size l - 1)
              == squared_deviations l - squared_deviations l / size l)
    by (field; lra).
  rewrite E.
  assert (0 <= squared_deviations l / size l)
    by (apply Qle_shift_div_l; lra).
  lra.
Qed.

Lemma biased_eq_unbiased (l : list Q) :
  (2 <= length l)%nat ->
  (variance_biased l == variance_unbiased l <-> all_identical l).
Proof.
  intros Hn. pose proof (size_ge_2 l Hn) as H2.
  assert (Hl : l <> []) by (apply nonempty_of_length; lia).
  rewrite <- (squared_deviations_zero l Hl).
  unfold variance_biased, variance_unbiased.
  set (S := squared_deviations l). set (n := size l) in *.
  assert (E : S / n - S / (n - 1) == - S / (n * (n - 1))) by (field; lra).
  split.
  - intros Heq.
    assert (Hz : - S / (n * (n - 1)) == 0) by lra.
    assert (Hp : 0 < n * (n - 1)) by nra.
    assert (Hm : - S == 0 * (n * (n - 1))).
    { rewrite <- Hz. field. lra. }
    lra.
  - intros Hz. rewrite Hz. field. lra.
Qed.

Lemma biased_nonneg (l : list Q) : l <> [] -> 0 <= variance_biased l.
Proof.
  intros Hl. pose proof (size_pos l Hl). pose proof (squared_deviations_nonneg l).
  unfold variance_biased. apply Qle_shift_div_l; lra.
Qed.

End Estimators.


(** ** The [random] module *)

Section Random.

Lemma set_rng_same (w : world) : set_rng (rng w) w = w.
Proof. now destruct w. Qed.

Lemma randint_2_10 (w : world) :
  randint 2 10 w
  = (Ok (2 + Z.of_nat (rng w 0%nat mod 9))%Z, set_rng (fun i => rng w (S i)) w).
Proof. reflexivity. Qed.

(** The selection loop ends normally as long as the pool holds enough
    values, and it adds one value to the result at each step. *)
Lemma sample_loop_ok (steps : nat) :
  forall (i n : nat) (pool result : list Z) (w : world),
    length pool = n -> (i + steps <= n)%nat ->
    exists (s : list Z) (g : nat -> nat),
      sample_loop steps i n pool result w = (Ok s, set_rng g w)
      /\ length s = (length result + steps)%nat.
Proof.
  induction steps as [|steps IH]; intros i n pool result w Hlen Hle.
  - exists result, (rng w). cbn [sample_loop]. unfold ret.
    rewrite set_rng_same. split; [reflexivity | lia].
  - cbn [sample_loop]. unfold bind at 1. unfold randbelow at 1.
    set (j := (rng w 0%nat mod (n - i))%nat).
    assert (Hj : (j < n - i)%nat) by (apply Nat.mod_upper_bound; lia).
    destruct (lookup_lt_is_Some_2 pool j) as [picked Hp]; [lia|].
    destruct (lookup_lt_is_Some_2 pool (n - i - 1)) as [last Hl]; [lia|].
    rewrite Hp, Hl.
    destruct (IH (S i) n (<[j:=last]> pool) (result ++ [picked])
                (set_rng (fun k => rng w (S k)) w)) as (s & g & E & Hs).
    + now rewrite length_insert.
    + lia.
    + exists s, g. split; [exact E|].
      rewrite Hs, length_app. simpl. lia.
Qed.

Lemma random_sample_ok (pop : list Z) (k : Z) (w : world) :
  (0 <= k <= Z.of_nat (length pop))%Z ->
  exists (s : list Z) (g : nat -> nat),
    random_sample pop k w = (Ok s, set_rng g w) /\ length s = Z.to_nat k.
Proof.
  intros Hk. unfold random_sample. cbv zeta.
  assert (E : ((0 <=? k) && (k <=? Z.of_nat (length pop)))%Z = true).
  { apply andb_true_intro. split; apply Z.leb_le; lia. }
  rewrite E.
  destruct (sample_loop_ok (Z.to_nat k) 0 (length pop) pop [] w)
    as (s & g & Es & Hs); [reflexivity | lia |].
  exists s, g. split; [exact Es | exact Hs].
Qed.

End Random.

(** ** One iteration of the loop *)

Section Iteration.

Lemma draw_sample_ok (w : world) :
  (10 <= length (population w))%nat ->
  exists (s : list Z) (g : nat -> nat),
    draw_sample w = (Ok s, set_rng g w)
    /\ Z.of_nat (length s) = (2 + Z.of_nat (rng w 0%nat mod 9))%Z.
Proof.
  intros Hpop. unfold draw_sample. unfold bind at 1. rewrite randint_2_10.
  unfold bind, get.
  pose proof (Nat.mod_upper_bound (rng w 0%nat) 9) as Hr.
  destruct (random_sample_ok
              (population (set_rng (fun i => rng w (S i)) w))
              (2 + Z.of_nat (rng w 0%nat mod 9))
              (set_rng (fun i => rng w (S i)) w)) as (s & g & E & Hs).
  { cbn [population set_rng]. lia. }
  exists s, g. split; [exact E|]. rewrite Hs. lia.
Qed.

(** Lines 180-181 never raise, and append one value to each history. *)
Lemma record_estimates_run (s : list Z) (w : world) :
  exists u : float64,
    variance_n1 (ints s) = Ok (NpFloat64 u)
    /\ record_estimates s w
       = (Ok tt, set_var_n1 (var_n1 w ++ [NpFloat64 u])
                   (set_var_n (var_n w ++ [variance_n (ints s)]) w)).
Proof.
  destruct (variance_n1_returns (ints s)) as [u Hu].
  exists u. split; [exact Hu|].
  unfold record_estimates, bind, get, modify, lift. rewrite Hu. reflexivity.
Qed.

Lemma loop_body_ok (w : world) :
  (10 <= length (population w))%nat ->
  exists (b u : pynum) (g : nat -> nat),
    loop_body w
    = (Ok tt, World (population w) (true_variance w) (running w)
                (var_n w ++ [b]) (var_n1 w ++ [u]) g).
Proof.
  intros Hpop. destruct (draw_sample_ok w Hpop) as (s & g & E & _).
  destruct (record_estimates_run s (set_rng g w)) as (u & _ & Er).
  exists (variance_n (ints s)), (NpFloat64 u), g.
  unfold loop_body, bind. rewrite E, Er. reflexivity.
Qed.

End Iteration.

(** ** The operations on the simulation state *)

Section Operations.

Lemma toggle_run_run (w : world) :
  toggle_run w = (Ok tt, set_running (negb (running w)) w).
Proof. reflexivity. Qed.

Lemma reset_run (w : world) :
  reset w
  = (Ok tt, World (population w) (true_variance w) false [] [] (rng w)).
Proof. reflexivity. Qed.

Lemma script_top_run (w : world) :
  script_top w
  = (Ok tt, World (py_range 1 21) (np_var (np_array (ints (py_range 1 21))))
              (running w) (var_n w) (var_n1 w) (rng w)).
Proof. reflexivity. Qed.

Lemma simulation_loop_idle (k : nat) (w : world) :
  running w = false -> simulation_loop k w = (Ok tt, w).
Proof.
  intros Hr. destruct k; [reflexivity|].
  cbn [simulation_loop]. unfold bind, get. now rewrite Hr.
Qed.

(** While the flag is set, [k] passes append [k] values to each history and
    leave the flag set: the loop does not stop by itself. *)
Lemma simulation_loop_running (k : nat) :
  forall w : world,
    populated w -> running w = true ->
    exists w' : world,
      simulation_loop k w = (Ok tt, w')
      /\ running w' = true
      /\ population w' = population w
      /\ true_variance w' = true_variance w
      /\ length (var_n w') = (length (var_n w) + k)%nat
      /\ length (var_n1 w') = (length (var_n1 w) + k)%nat.
Proof.
  induction k as [|k IH]; intros w Hpop Hr.
  - exists w. cbn [simulation_loop]. unfold ret.
    repeat split; first [assumption | lia].
  - destruct (loop_body_ok w Hpop) as (b & u & g & E).
    set (w1 := World (population w) (true_variance w) (running w)
                 (var_n w ++ [b]) (var_n1 w ++ [u]) g) in E.
    destruct (IH w1) as (w' & E' & Hr' & Hp' & Ht' & Hn' & Hn1'); [exact Hpop | exact Hr |].
    exists w'. cbn [simulation_loop]. unfold bind at 1. unfold get at 1.
    rewrite Hr. unfold bind at 1. rewrite E, E'.
    repeat split; try assumption.
    + rewrite Hn'. cbn [var_n w1]. rewrite length_app. simpl. lia.
    + rewrite Hn1'. cbn [var_n1 w1]. rewrite length_app. simpl. lia.
Qed.

(** Every operation ends normally on a populated world, keeps the globals
    and keeps the histories balanced. *)
Lemma perform_preserves (a : action) (w : world) :
  populated w ->
  exists w' : world,
    perform a w = (Ok tt, w')
    /\ population w' = population w
    /\ true_variance w' = true_variance w
    /\ (balanced w -> balanced w').
Proof.
  intros Hpop. destruct a; cbn [perform].
  - rewrite toggle_run_run. eexists. repeat split. intros H. exact H.
  - rewrite reset_run. eexists. repeat split.
  - destruct (running w) eqn:Hr.
    + destruct (simulation_loop_running 1 w Hpop Hr)
        as (w' & E & _ & Hp & Ht & Hn & Hn1).
      exists w'. repeat split; try assumption.
      unfold balanced. intros Hb. rewrite Hn, Hn1, Hb. reflexivity.
    + rewrite (simulation_loop_idle 1 w Hr). exists w. repeat split. tauto.
Qed.

Lemma perform_all_preserves (l : list action) :
  forall w : world,
    populated w ->
    exists w' : world,
      perform_all l w = (Ok tt, w')
      /\ population w' = population w
      /\ true_variance w' = true_variance w
      /\ (balanced w -> balanced w').
Proof.
  induction l as [|a l IH]; intros w Hpop.
  - exists w. repeat split. tauto.
  - destruct (perform_preserves a w Hpop) as (w1 & E1 & Hp1 & Ht1 & Hb1).
    destruct (IH w1) as (w' & E' & Hp' & Ht' & Hb').
    { unfold populated. rewrite Hp1. exact Hpop. }
    exists w'. cbn [perform_all]. unfold bind. rewrite E1, E'.
    repeat split; [congruence | congruence | tauto].
Qed.

Lemma initial_populated (gen : nat -> nat) : populated (initial_state gen).
Proof. unfold populated. cbn [population initial_state]. vm_compute. lia. Qed.

Lemma initial_balanced (gen : nat -> nat) : balanced (initial_state gen).
Proof. reflexivity. Qed.

(** A whole run of the script, whatever the session state it starts from. *)
Lemma script_run_preserves (c : click) (k : nat) (w : world) :
  exists w' : world,
    script_run c k w = (Ok tt, w')
    /\ population w' = py_range 1 21
    /\ true_variance w' = np_var (np_array (ints (py_range 1 21)))
    /\ (balanced w -> balanced w').
Proof.
  unfold script_run. unfold bind at 1. rewrite script_top_run.
  set (w0 := World (py_range 1 21) _ (running w) (var_n w) (var_n1 w) (rng w)).
  assert (Hpop0 : populated w0) by (unfold populated; vm_compute; lia).
  assert (Hstep : exists w1 : world,
             match c with
             | NoClick => ret tt
             | StartPause => toggle_run
             | ClearReset => reset
             end w0 = (Ok tt, w1)
             /\ population w1 = population w0
             /\ true_variance w1 = true_variance w0
             /\ (balanced w -> balanced w1)).
  { destruct c.
    - exists w0. repeat split. intros H. exact H.
    - rewrite toggle_run_run. eexists. repeat split. intros H. exact H.
    - rewrite reset_run. eexists. repeat split. }
  destruct Hstep as (w1 & E1 & Hp1 & Ht1 & Hb1).
  unfold bind at 1. rewrite E1.
  assert (Hpop1 : populated w1) by (unfold populated; rewrite Hp1; exact Hpop0).
  destruct (running w1) eqn:Hr.
  - destruct (simulation_loop_running k w1 Hpop1 Hr)
      as (w' & E & _ & Hp & Ht & Hn & Hn1).
    exists w'. split; [exact E|].
    split; [now rewrite Hp, Hp1|]. split; [now rewrite Ht, Ht1|].
    unfold balanced. intros Hb. rewrite Hn, Hn1. apply Hb1 in Hb.
    unfold balanced in Hb. now rewrite Hb.
  - rewrite (simulation_loop_idle k w1 Hr). exists w1.
    split; [reflexivity|]. split; [now rewrite Hp1|]. split; [now rewrite Ht1|].
    exact Hb1.
Qed.

End Operations.

(** ** The simulation state against the specification *)

(** C5.  In any state the reset ends with the flag cleared and both histories
    empty; a run of the script caused by the Clear / Reset button ends in such
    a state as well, whatever the number of passes granted to its loop. *)
Theorem reset_clears_the_simulation (w : world) :
  outcome reset w = Ok tt
  /\ running (exec reset w) = false
  /\ var_n (exec reset w) = []
  /\ var_n1 (exec reset w) = []
  /\ (forall k : nat,
        outcome (script_run ClearReset k) w = Ok tt
        /\ running (exec (script_run ClearReset k) w) = false
        /\ var_n (exec (script_run ClearReset k) w) = []
        /\ var_n1 (exec (script_run ClearReset k) w) = []).
Proof.
  unfold exec, outcome. rewrite reset_run. cbn [fst snd running var_n var_n1].
  repeat split.
  all: unfold script_run; unfold bind at 1; rewrite script_top_run;
       unfold bind at 1; rewrite reset_run;
       rewrite simulation_loop_idle by reflexivity; reflexivity.
Qed.

(** C8.  The toggle flips the flag and nothing else: from the initial (idle)
    state it sets the flag, a second toggle clears it again, and the
    histories, the true variance, the population and the generator are left
    as they were; two toggles restore the state. *)
Theorem toggle_flips_only_the_flag (w : world) :
  let w1 := exec toggle_run w in
  let w2 := exec toggle_run w1 in
  outcome toggle_run w = Ok tt
  /\ running w1 = negb (running w)
  /\ var_n w1 = var_n w
  /\ var_n1 w1 = var_n1 w
  /\ true_variance w1 = true_variance w
  /\ population w1 = population w
  /\ rng w1 = rng w
  /\ w2 = w
  /\ (forall gen : nat -> nat,
        running (initial_state gen) = false
        /\ running (exec toggle_run (initial_state gen)) = true
        /\ running (exec toggle_run (exec toggle_run (initial_state gen))) = false).
Proof.
  cbv zeta. unfold exec, outcome. rewrite !toggle_run_run. cbn [fst snd].
  repeat split.
  destruct w as [p t r h h1 g]. unfold set_running. cbn.
  now rewrite Bool.negb_involutive.
Qed.

(** One pass of the loop on a populated world: the sample drawn at lines
    178-179 is the one both estimators receive at lines 180-181. *)
Lemma loop_body_estimates (w : world) :
  populated w ->
  exists (s : list Z) (g : nat -> nat) (u : float64),
    draw_sample w = (Ok s, set_rng g w)
    /\ Z.of_nat (length s) = (2 + Z.of_nat (rng w 0%nat mod 9))%Z
    /\ variance_n1 (ints s) = Ok (NpFloat64 u)
    /\ loop_body w
       = (Ok tt, World (population w) (true_variance w) (running w)
                   (var_n w ++ [variance_n (ints s)])
                   (var_n1 w ++ [NpFloat64 u]) g).
Proof.
  intros Hpop. destruct (draw_sample_ok w Hpop) as (s & g & E & Hs).
  destruct (record_estimates_run s (set_rng g w)) as (u & Hu & Er).
  exists s, g, u. repeat split; try assumption.
  unfold loop_body, bind. rewrite E, Er. reflexivity.
Qed.

(** C7.  The true variance is the variance of the population 1..20 with
    divisor N, that is 33.25.  It is computed at the top of a run and keeps
    that value for the rest of the run: no toggle, reset or iteration changes
    it, and no run of the script ends with another value. *)
Theorem true_variance_is_constant :
  (forall gen : nat -> nat,
     let w := initial_state gen in
     population w = [1; 2; 3; 4; 5; 6; 7; 8; 9; 10;
                     11; 12; 13; 14; 15; 16; 17; 18; 19; 20]%Z
     /\ true_variance w = np_var (np_array (ints (population w)))
     /\ f_same (true_variance w)
          (Finite (Spec.variance_biased (ints (population w))))
     /\ f_same (true_variance w) (Finite (133 # 4)))
  /\ (forall (gen : nat -> nat) (l : list action),
        true_variance (exec (perform_all l) (initial_state gen))
        = true_variance (initial_state gen))
  /\ (forall (c : click) (k : nat) (w : world),
        true_variance (exec (script_run c k) w)
        = true_variance (exec script_top w)
        /\ f_same (true_variance (exec (script_run c k) w)) (Finite (133 # 4))).
Proof.
  assert (Hv : f_same (np_var (np_array (ints (py_range 1 21)))) (Finite (133 # 4))).
  { vm_compute. reflexivity. }
  split; [|split].
  - intros gen w. subst w.
    split; [reflexivity|]. split; [reflexivity|]. split; [|exact Hv].
    change (population (initial_state gen)) with (py_range 1 21).
    change (true_variance (initial_state gen))
      with (np_var (np_array (ints (py_range 1 21)))).
    destruct (np_var_value (ints (py_range 1 21))) as (b & E & Hb);
      [discriminate|].
    rewrite E. exact Hb.
  - intros gen l.
    destruct (perform_all_preserves l (initial_state gen) (initial_populated gen))
      as (w' & E & _ & Ht & _).
    unfold exec. rewrite E. exact Ht.
  - intros c k w.
    destruct (script_run_preserves c k w) as (w' & E & _ & Ht & _).
    unfold exec. rewrite E, script_top_run. cbn [snd true_variance].
    rewrite Ht. split; [reflexivity | exact Hv].
Qed.


(** * Further properties of the script *)

Lemma quotient_zero (s d : Q) : 0 < d -> (s / d == 0 <-> s == 0).
Proof.
  intros Hd. split; intros H.
  - assert (E : s == s / d * d) by (field; lra). rewrite E, H. ring.
  - rewrite H. field. lra.
Qed.

(** ** Sampling without replacement *)

Section Sampling.

(** One step of the selection: the value picked leaves the live part of the
    pool, whose last value takes its place. *)
Lemma pool_step (pool : list Z) (j m : nat) (picked last : Z) :
  (j <= m)%nat ->
  pool !! j = Some picked ->
  pool !! m = Some last ->
  picked :: take m (<[j:=last]> pool) ≡ₚ take (S m) pool.
Proof.
  intros Hjm Hj Hm. rewrite (take_S_r pool m last Hm).
  destruct (decide (j = m)) as [->|Hne].
  - assert (picked = last) by congruence. subst last.
    rewrite take_insert_ge by lia. apply Permutation_cons_append.
  - assert (Hlt : (j < m)%nat) by lia.
    rewrite take_insert_lt by exact Hlt.
    assert (Hl : take m pool !! j = Some picked)
      by (rewrite lookup_take_lt by exact Hlt; exact Hj).
    pose proof (take_drop_middle (take m pool) j picked Hl) as E2.
    pose proof (insert_take_drop (take m pool) j last
                  (lookup_lt_Some _ _ _ Hl)) as E1.
    remember (take m pool) as l eqn:El.
    remember (take j l) as front eqn:Ef.
    remember (drop (S j) l) as back eqn:Eb.
    rewrite E1, <- E2.
    transitivity (picked :: last :: front ++ back).
    + apply perm_skip. symmetry. apply Permutation_middle.
    + rewrite <- Permutation_cons_append, <- Permutation_middle.
      apply perm_swap.
Qed.

Lemma sample_loop_partition (steps : nat) :
  forall (i n : nat) (pool result s : list Z) (w w' : world),
    length pool = n -> (i + steps <= n)%nat ->
    sample_loop steps i n pool result w = (Ok s, w') ->
    exists rest : list Z, s ++ rest ≡ₚ result ++ take (n - i) pool.
Proof.
  induction steps as [|steps IH]; intros i n pool result s w w' Hlen Hle H.
  - cbn [sample_loop] in H. unfold ret in H. injection H as <- _.
    exists (take (n - i) pool). reflexivity.
  - cbn [sample_loop] in H. unfold bind at 1 in H. unfold randbelow at 1 in H.
    set (j := (rng w 0%nat mod (n - i))%nat) in H.
    assert (Hj : (j < n - i)%nat) by (apply Nat.mod_upper_bound; lia).
    destruct (lookup_lt_is_Some_2 pool j) as [picked Hp]; [lia|].
    destruct (lookup_lt_is_Some_2 pool (n - i - 1)) as [last Hl]; [lia|].
    rewrite Hp, Hl in H.
    apply IH in H; [|now rewrite length_insert|lia].
    destruct H as [rest Hrest]. exists rest.
    rewrite Hrest, <- app_assoc. apply Permutation_app_head.
    replace (n - i)%nat with (S (n - S i)) by lia.
    replace (n - i - 1)%nat with (n - S i)%nat in Hl by lia.
    apply pool_step; [lia | exact Hp | exact Hl].
Qed.

Lemma random_sample_partition (pop s : list Z) (k : Z) (w w' : world) :
  random_sample pop k w = (Ok s, w') ->
  exists rest : list Z, s ++ rest ≡ₚ pop.
Proof.
  unfold random_sample. cbv zeta.
  destruct ((0 <=? k) && (k <=? Z.of_nat (length pop)))%Z eqn:E;
    [|unfold raise; discriminate].
  apply andb_prop in E as [E1 E2]. apply Z.leb_le in E1, E2.
  intros H. apply sample_loop_partition in H; [|reflexivity|lia].
  destruct H as [rest Hrest]. exists rest.
  rewrite Hrest, Nat.sub_0_r, firstn_all. reflexivity.
Qed.

End Sampling.

(** Lines 178-179 draw without replacement.  On a population of at least 10
    values the sample holds between 2 and 10 values and, together with some
    rest, it is a rearrangement of the population: no position of the
    population is drawn twice.  So every value of the sample is a value of
    the population, and the values of the sample are distinct when those of
    the population are. *)
Theorem samples_are_drawn_without_replacement (w : world) :
  populated w ->
  exists (s rest : list Z),
    outcome draw_sample w = Ok s
    /\ (2 <= length s <= 10)%nat
    /\ s ++ rest ≡ₚ population w
    /\ (forall v : Z, In v s -> In v (population w))
    /\ (NoDup (population w) -> NoDup s).
Proof.
  intros Hpop. destruct (draw_sample_ok w Hpop) as (s & g & E & Hs).
  pose proof (Nat.mod_upper_bound (rng w 0%nat) 9 ltac:(lia)) as Hr.
  assert (Hpart : exists rest : list Z, s ++ rest ≡ₚ population w).
  { unfold draw_sample in E. unfold bind at 1 in E. rewrite randint_2_10 in E.
    unfold bind, get in E. apply random_sample_partition in E. exact E. }
  destruct Hpart as [rest Hrest]. exists s, rest.
  unfold outcome. rewrite E. split; [reflexivity|]. split; [lia|].
  split; [exact Hrest|]. split.
  - intros v Hv. apply list_elem_of_In. rewrite <- Hrest.
    apply elem_of_app. left. now apply list_elem_of_In.
  - intros Hnd. rewrite <- Hrest in Hnd. now apply NoDup_app in Hnd.
Qed.

Lemma samples_are_drawn_without_replacement_witness :
  exists (s rest : list Z),
    outcome draw_sample (initial_state (fun i => 3 * i + 1)%nat) = Ok s
    /\ (2 <= length s <= 10)%nat
    /\ s ++ rest ≡ₚ population (initial_state (fun i => 3 * i + 1)%nat)
    /\ (forall v : Z, In v s ->
          In v (population (initial_state (fun i => 3 * i + 1)%nat)))
    /\ (NoDup (population (initial_state (fun i => 3 * i + 1)%nat)) -> NoDup s).
Proof.
  apply (samples_are_drawn_without_replacement
           (initial_state (fun i => 3 * i + 1)%nat)).
  unfold populated. vm_compute. lia.
Defined.

(** ** What the histories hold *)

Section Histories.

Import Spec.

Lemma draw_sample_partition (w w' : world) (s : list Z) :
  draw_sample w = (Ok s, w') -> exists rest : list Z, s ++ rest ≡ₚ population w.
Proof.
  unfold draw_sample. unfold bind at 1. rewrite randint_2_10.
  unfold bind, get. intros E. now apply random_sample_partition in E.
Qed.

Lemma distinct_values_not_identical (s : list Z) :
  NoDup s -> (2 <= length s)%nat -> ~ all_identical (ints s).
Proof.
  intros Hnd Hn Hid. destruct s as [|a [|b s]]; simpl in Hn; try lia.
  assert (E : inject_Z a == inject_Z b).
  { apply Hid; simpl; auto. }
  apply (proj1 (inject_Z_injective a b)) in E. subst b.
  apply NoDup_cons in Hnd as [Hnotin _]. apply Hnotin. left.
Qed.

Lemma distinct_sample_estimates (s : list Z) :
  NoDup s -> (2 <= length s)%nat ->
  0 < variance_biased (ints s)
  /\ variance_biased (ints s) < variance_unbiased (ints s).
Proof.
  intros Hnd Hn.
  assert (Hn' : (2 <= length (ints s))%nat) by (unfold ints; now rewrite length_map).
  assert (Hx : ints s <> []) by (apply nonempty_of_length; lia).
  pose proof (distinct_values_not_identical s Hnd Hn) as Hnot.
  split.
  - destruct (Qle_lt_or_eq _ _ (biased_nonneg (ints s) Hx)) as [Hlt|Heq];
      [exact Hlt|].
    exfalso. apply Hnot. apply (squared_deviations_zero _ Hx).
    apply (quotient_zero _ (size (ints s)) (size_pos _ Hx)).
    symmetry. exact Heq.
  - destruct (Qle_lt_or_eq _ _ (biased_le_unbiased (ints s) Hn')) as [Hlt|Heq];
      [exact Hlt|].
    exfalso. apply Hnot. now apply biased_eq_unbiased.
Qed.

(** One pass on a populated world whose population has distinct values
    appends a pair of strictly ordered estimates. *)
Lemma loop_body_strict (w : world) :
  populated w -> NoDup (population w) ->
  exists (b u : pynum) (g : nat -> nat),
    loop_body w
    = (Ok tt, World (population w) (true_variance w) (running w)
                (var_n w ++ [b]) (var_n1 w ++ [u]) g)
    /\ strict_estimates b u.
Proof.
  intros Hpop Hnd.
  destruct (loop_body_estimates w Hpop) as (s & g & u & E & Hs & Hu & El).
  exists (variance_n (ints s)), (NpFloat64 u), g. split; [exact El|].
  destruct (draw_sample_partition _ _ _ E) as [rest Hrest].
  assert (Hnds : NoDup s).
  { rewrite <- Hrest in Hnd. now apply NoDup_app in Hnd. }
  assert (Hn : (2 <= length s)%nat) by lia.
  assert (Hn' : (2 <= length (ints s))%nat) by (unfold ints; now rewrite length_map).
  destruct (variance_n_value (ints s)) as (p & Ep & Hp);
    [apply nonempty_of_length; lia|].
  destruct (variance_n1_value (ints s) Hn') as (q & Eq & Hq).
  assert (u = Finite q) by congruence. subst u.
  exists p, q. split; [exact Ep|]. split; [reflexivity|].
  destruct (distinct_sample_estimates s Hnds Hn) as [H0 Hlt].
  rewrite Hp, Hq. split; assumption.
Qed.



Lemma initial_population_distinct (gen : nat -> nat) :
  NoDup (population (initial_state gen)).
Proof.
  change (population (initial_state gen)) with (py_range 1 21).
  apply (bool_decide_unpack (NoDup (py_range 1 21))). vm_compute. exact I.
Qed.

End Histories.


(** ** The runs of the whole script *)

Section WholeScript.

Lemma plot_simulation_empty (w : world) :
  var_n w = [] -> plot_simulation w = Finished.
Proof. unfold plot_simulation. now intros ->. Qed.

Lemma plot_simulation_nonempty (w : world) :
  var_n w <> [] -> plot_simulation w = Died AttributeError.
Proof.
  unfold plot_simulation. destruct (var_n w); [congruence | reflexivity].
Qed.

Lemma plotting_loop_idle (k : nat) (w : world) :
  running w = false -> plotting_loop k w = (Finished, w).
Proof. intros Hr. destruct k; cbn [plotting_loop]; now rewrite Hr. Qed.

(** A pass records its pair, then the plot kills the run. *)
Lemma plotting_loop_running (k : nat) (w : world) :
  populated w -> NoDup (population w) -> running w = true ->
  exists (b u : pynum) (g : nat -> nat),
    plotting_loop (S k) w
    = (Died AttributeError,
       World (population w) (true_variance w) true
         (var_n w ++ [b]) (var_n1 w ++ [u]) g)
    /\ strict_estimates b u.
Proof.
  intros Hpop Hnd Hr.
  destruct (loop_body_strict w Hpop Hnd) as (b & u & g & E & Hbu).
  exists b, u, g. split; [|exact Hbu].
  cbn [plotting_loop]. rewrite Hr. unfold and_then. rewrite E, Hr.
  rewrite plot_simulation_nonempty; [reflexivity|].
  cbn [var_n]. intros H. now apply app_eq_nil in H as [_ H].
Qed.

Lemma top_populated (w : world) : populated (exec script_top w).
Proof. unfold exec. rewrite script_top_run. unfold populated. vm_compute. lia. Qed.

Lemma top_distinct (w : world) : NoDup (population (exec script_top w)).
Proof. apply (initial_population_distinct (rng w)). Qed.

(** The shape of a run, by the state of the flag once the buttons are
    handled. *)
Lemma whole_script_run_unfold (c : click) (k : nat) (w : world) :
  let w1 := exec (click_handler c) (exec script_top w) in
  whole_script_run c k w
  = match plotting_loop k w1 with
    | (Finished, w') => (plot_simulation w', w')
    | (other, w') => (other, w')
    end.
Proof.
  cbv zeta. unfold whole_script_run, and_then, exec.
  rewrite script_top_run. cbn [snd].
  destruct c; cbn [click_handler]; reflexivity.
Qed.

Lemma handler_keeps_population (c : click) (w : world) :
  population (exec (click_handler c) w) = population w.
Proof. destruct c; reflexivity. Qed.

End WholeScript.

(** What a run does to the histories: it empties them (Reset), it leaves them
    as they are, or it appends one pair of estimates. *)
Lemma whole_script_run_histories (c : click) (k : nat) (w : world) :
  let w' := snd (whole_script_run c k w) in
  (c = ClearReset /\ var_n w' = [] /\ var_n1 w' = [])
  \/ (c <> ClearReset /\ var_n w' = var_n w /\ var_n1 w' = var_n1 w)
  \/ (c <> ClearReset /\
      exists b u : pynum,
        var_n w' = var_n w ++ [b] /\ var_n1 w' = var_n1 w ++ [u]
        /\ strict_estimates b u).
Proof.
  cbv zeta. rewrite whole_script_run_unfold. cbv zeta.
  set (w1 := exec (click_handler c) (exec script_top w)).
  assert (Hpop : populated w1).
  { unfold populated, w1. rewrite handler_keeps_population. apply top_populated. }
  assert (Hnd : NoDup (population w1)).
  { unfold w1. rewrite handler_keeps_population. apply top_distinct. }
  destruct c.
  - right.
    assert (Hv : var_n w1 = var_n w /\ var_n1 w1 = var_n1 w) by (split; reflexivity).
    destruct Hv as [Hv Hv1].
    destruct (running w1) eqn:Hr.
    + destruct k as [|k].
      * left. cbn [plotting_loop]. rewrite Hr. cbn [snd].
        split; [discriminate|]. now split.
      * right. split; [discriminate|].
        destruct (plotting_loop_running k w1 Hpop Hnd Hr) as (b & u & g & E & Hbu).
        rewrite E. cbn [snd var_n var_n1]. exists b, u. rewrite Hv, Hv1. now repeat split.
    + left. rewrite (plotting_loop_idle k w1 Hr). cbn [snd].
      split; [discriminate|]. now split.
  - right.
    assert (Hv : var_n w1 = var_n w /\ var_n1 w1 = var_n1 w) by (split; reflexivity).
    destruct Hv as [Hv Hv1].
    destruct (running w1) eqn:Hr.
    + destruct k as [|k].
      * left. cbn [plotting_loop]. rewrite Hr. cbn [snd].
        split; [discriminate|]. now split.
      * right. split; [discriminate|].
        destruct (plotting_loop_running k w1 Hpop Hnd Hr) as (b & u & g & E & Hbu).
        rewrite E. cbn [snd var_n var_n1]. exists b, u. rewrite Hv, Hv1. now repeat split.
    + left. rewrite (plotting_loop_idle k w1 Hr). cbn [snd].
      split; [discriminate|]. now split.
  - left. rewrite (plotting_loop_idle k w1) by reflexivity. cbn [snd].
    split; [reflexivity|]. split; reflexivity.
Qed.

(** A run with nothing to plot ends normally: the first run of a session, and
    every run caused by the Clear / Reset button, which also leaves the flag
    cleared and both histories empty. *)
Theorem runs_with_nothing_to_plot_finish :
  (forall (gen : nat -> nat) (k : nat),
     whole_script_run NoClick k (initial_state gen) = (Finished, initial_state gen))
  /\ (forall (w : world) (k : nat),
     exists w' : world,
       whole_script_run ClearReset k w = (Finished, w')
       /\ running w' = false /\ var_n w' = [] /\ var_n1 w' = []).
Proof.
  split.
  - intros gen k. rewrite whole_script_run_unfold. cbv zeta.
    rewrite plotting_loop_idle by reflexivity. reflexivity.
  - intros w k. rewrite whole_script_run_unfold. cbv zeta.
    rewrite plotting_loop_idle by reflexivity.
    eexists. split; [reflexivity|]. repeat split.
Qed.

(** Once an estimate is recorded, every run that does not reset dies with
    AttributeError, in the loop (line 182) or after it (line 188), as soon as
    it is granted one pass. *)
Theorem plots_fail_once_an_estimate_is_recorded
  (c : click) (k : nat) (w : world) :
  c <> ClearReset -> var_n w <> [] -> (1 <= k)%nat ->
  fst (whole_script_run c k w) = Died AttributeError.
Proof.
  intros Hc Hv Hk. rewrite whole_script_run_unfold. cbv zeta.
  set (w1 := exec (click_handler c) (exec script_top w)).
  assert (Hpop : populated w1).
  { unfold populated, w1. rewrite handler_keeps_population. apply top_populated. }
  assert (Hnd : NoDup (population w1)).
  { unfold w1. rewrite handler_keeps_population. apply top_distinct. }
  assert (Hv1 : var_n w1 = var_n w) by (destruct c; [reflexivity..|congruence]).
  destruct (running w1) eqn:Hr.
  - destruct k as [|k]; [lia|].
    destruct (plotting_loop_running k w1 Hpop Hnd Hr) as (b & u & g & E & _).
    rewrite E. reflexivity.
  - rewrite (plotting_loop_idle k w1 Hr). cbn [fst].
    apply plot_simulation_nonempty. now rewrite Hv1.
Qed.

Lemma plots_fail_once_an_estimate_is_recorded_witness :
  fst (whole_script_run NoClick 3
         (set_var_n1 [NpFloat64 (Finite 2)]
            (set_var_n [NpFloat64 (Finite 1)] (initial_state (fun i => i)))))
  = Died AttributeError.
Proof.
  apply plots_fail_once_an_estimate_is_recorded; [discriminate | discriminate | lia].
Defined.



(** Pausing keeps the histories: a run caused by the Start / Pause button
    while the simulation runs clears the flag and appends nothing. *)
Theorem pausing_keeps_the_histories (k : nat) (w : world) :
  running w = true ->
  exists w' : world,
    whole_script_run StartPause k w = (plot_simulation w, w')
    /\ running w' = false
    /\ var_n w' = var_n w
    /\ var_n1 w' = var_n1 w.
Proof.
  intros Hr. rewrite whole_script_run_unfold. cbv zeta.
  rewrite plotting_loop_idle.
  - eexists. split; [reflexivity|]. cbn. now rewrite Hr.
  - cbn. now rewrite Hr.
Qed.

Lemma pausing_keeps_the_histories_witness :
  exists w' : world,
    whole_script_run StartPause 4
      (set_running true (initial_state (fun i => i)))
    = (plot_simulation (set_running true (initial_state (fun i => i))), w')
    /\ running w' = false
    /\ var_n w' = []
    /\ var_n1 w' = [].
Proof.
  apply (pausing_keeps_the_histories 4 (set_running true (initial_state (fun i => i)))).
  reflexivity.
Defined.

Lemma whole_session_histories (runs : list (click * nat)) :
  forall w : world,
    Forall2 strict_estimates (var_n w) (var_n1 w) ->
    let w' := snd (whole_session runs w) in
    Forall2 strict_estimates (var_n w') (var_n1 w')
    /\ (length (var_n w') <= length (var_n w) + length runs)%nat.
Proof.
  induction runs as [|[c k] runs IH]; intros w Hinv; cbv zeta.
  - cbn [whole_session snd length]. split; [exact Hinv | lia].
  - cbn [whole_session].
    pose proof (whole_script_run_histories c k w) as Hstep. cbv zeta in Hstep.
    destruct (whole_script_run c k w) as [e w1]. cbn [snd] in Hstep.
    assert (Hinv1 : Forall2 strict_estimates (var_n w1) (var_n1 w1)
                    /\ (length (var_n w1) <= S (length (var_n w)))%nat).
    { destruct Hstep as [(_ & -> & ->)|[(_ & -> & ->)|(_ & b & u & -> & -> & Hbu)]].
      - split; [constructor | simpl; lia].
      - split; [exact Hinv | lia].
      - split; [|rewrite length_app; simpl; lia].
        apply Forall2_app; [exact Hinv|]. repeat constructor. exact Hbu. }
    destruct Hinv1 as [Hinv1 Hlen1].
    specialize (IH w1 Hinv1). cbv zeta in IH.
    destruct (whole_session runs w1) as [es w2]. cbn [snd] in *.
    destruct IH as [IH1 IH2]. split; [exact IH1|]. simpl. lia.
Qed.


(** The plots change no state: a whole run leaves the world that the run
    without plots leaves when its loop is cut after the first pass. *)
Theorem a_whole_run_is_a_run_cut_after_one_pass
  (c : click) (k : nat) (w : world) :
  snd (whole_script_run c k w) = exec (script_run c (Nat.min k 1)) w.
Proof.
  rewrite whole_script_run_unfold. cbv zeta.
  unfold exec at 3, script_run.
  unfold bind at 1. rewrite script_top_run.
  unfold exec at 2. rewrite script_top_run. cbn [snd].
  set (w0 := World (py_range 1 21) _ (running w) (var_n w) (var_n1 w) (rng w)).
  assert (Hh : exists w1 : world,
             click_handler c w0 = (Ok tt, w1)
             /\ population w1 = population w0).
  { destruct c; cbn [click_handler]; eexists; split; reflexivity. }
  destruct Hh as (w1 & Eh & Hp1).
  change (match c with
          | NoClick => ret tt
          | StartPause => toggle_run
          | ClearReset => reset
          end) with (click_handler c).
  unfold bind at 1. unfold exec. rewrite Eh. cbn [snd].
  assert (Hpop : populated w1).
  { unfold populated. rewrite Hp1. vm_compute. lia. }
  assert (Hnd : NoDup (population w1)).
  { rewrite Hp1. apply (initial_population_distinct (rng w)). }
  destruct (running w1) eqn:Hr.
  - destruct k as [|k].
    + cbn [plotting_loop Nat.min simulation_loop]. rewrite Hr. reflexivity.
    + destruct (loop_body_strict w1 Hpop Hnd) as (b & u & g & E & _).
      replace (Nat.min (S k) 1) with 1%nat by lia.
      cbn [simulation_loop plotting_loop]. rewrite Hr.
      unfold bind at 1. unfold get at 1. rewrite Hr.
      unfold and_then, bind. rewrite E.
      rewrite plot_simulation_nonempty; [reflexivity|].
      cbn [var_n]. intros H. now apply app_eq_nil in H as [_ H].
  - rewrite (plotting_loop_idle k w1 Hr), (simulation_loop_idle _ w1 Hr).
    reflexivity.
Qed.

(** ** Bounds on the estimates *)

Section Bounds.

Import Spec.

Variables lo hi : Q.







End Bounds.

Section BoundedHistories.

Import Spec.





End BoundedHistories.


(** ** The call of line 179 *)

(** [random.sample(population, k)] succeeds exactly when [0 <= k <= n].  It
    then returns [k] values which, with some rest, are a rearrangement of the
    population, and it changes nothing but the state of the generator.
    Otherwise it raises ValueError and changes nothing at all. *)
Theorem random_sample_succeeds_within_bounds (pop : list Z) (k : Z) (w : world) :
  ((0 <= k <= Z.of_nat (length pop))%Z ->
     exists (s rest : list Z) (g : nat -> nat),
       random_sample pop k w = (Ok s, set_rng g w)
       /\ length s = Z.to_nat k
       /\ s ++ rest ≡ₚ pop)
  /\ (~ (0 <= k <= Z.of_nat (length pop))%Z ->
     random_sample pop k w = (Raise ValueError, w)).
Proof.
  split.
  - intros Hk. destruct (random_sample_ok pop k w Hk) as (s & g & E & Hs).
    destruct (random_sample_partition pop s k w _ E) as [rest Hrest].
    now exists s, rest, g.
  - intros Hk. unfold random_sample. cbv zeta.
    destruct ((0 <=? k) && (k <=? Z.of_nat (length pop)))%Z eqn:E;
      [|reflexivity].
    apply andb_prop in E as [E1 E2]. apply Z.leb_le in E1, E2. lia.
Qed.

Lemma random_sample_succeeds_within_bounds_witness :
  (exists (s rest : list Z) (g : nat -> nat),
     random_sample [4; 8; 15; 16]%Z 3 (initial_state (fun i => i))
     = (Ok s, set_rng g (initial_state (fun i => i)))
     /\ length s = Z.to_nat 3
     /\ s ++ rest ≡ₚ [4; 8; 15; 16]%Z)
  /\ random_sample [4; 8; 15; 16]%Z (-1) (initial_state (fun i => i))
     = (Raise ValueError, initial_state (fun i => i)).
Proof.
  split.
  - apply (random_sample_succeeds_within_bounds [4; 8; 15; 16]%Z 3). simpl. lia.
  - apply (random_sample_succeeds_within_bounds [4; 8; 15; 16]%Z (-1)). simpl. lia.
Defined.

(** ** The histories, with the plots *)

Section PlottedOperations.

(** A pass of the loop on a populated world, while the flag is set: the pair
    is recorded, then the plot kills the run. *)
Lemma step_iteration_running (w : world) :
  populated w -> running w = true ->
  exists (b u : pynum) (g : nat -> nat),
    step Iteration w
    = (Died AttributeError,
       World (population w) (true_variance w) true
         (var_n w ++ [b]) (var_n1 w ++ [u]) g).
Proof.
  intros Hpop Hr. destruct (loop_body_ok w Hpop) as (b & u & g & E).
  exists b, u, g. cbn [step]. rewrite Hr. unfold and_then. rewrite E, Hr.
  rewrite plot_simulation_nonempty; [reflexivity|].
  cbn [var_n]. intros H. now apply app_eq_nil in H as [_ H].
Qed.

Lemma step_iteration_idle (w : world) :
  running w = false -> step Iteration w = (Finished, w).
Proof. intros Hr. cbn [step]. now rewrite Hr. Qed.

(** Every operation keeps the population, and keeps the histories balanced. *)
Lemma step_preserves (a : action) (w : world) :
  populated w ->
  population (snd (step a w)) = population w
  /\ (balanced w -> balanced (snd (step a w))).
Proof.
  intros Hpop. destruct a.
  - cbn [step]. unfold and_then. rewrite toggle_run_run. cbn [snd].
    split; [reflexivity | tauto].
  - cbn [step]. unfold and_then. rewrite reset_run. cbn [snd].
    split; reflexivity.
  - destruct (running w) eqn:Hr.
    + destruct (step_iteration_running w Hpop Hr) as (b & u & g & ->).
      cbn [snd population]. split; [reflexivity|].
      unfold balanced. cbn [var_n var_n1]. rewrite !length_app.
      intros ->. reflexivity.
    + rewrite (step_iteration_idle w Hr). cbn [snd]. split; [reflexivity | tauto].
Qed.

Lemma steps_preserve (l : list action) :
  forall w : world,
    populated w -> balanced w -> balanced (snd (steps l w)).
Proof.
  induction l as [|a l IH]; intros w Hpop Hb; [exact Hb|].
  cbn [steps]. destruct (step_preserves a w Hpop) as [Hp Hb1].
  destruct (step a w) as [e w1]. cbn [snd] in *.
  specialize (IH w1). destruct (steps l w1) as [es w2]. cbn [snd] in *.
  apply IH; [unfold populated; now rewrite Hp | now apply Hb1].
Qed.

(** While the flag is set, [k] iterations append [k] values to each
    history. *)
Lemma steps_repeat_iteration (k : nat) :
  forall w : world,
    populated w -> running w = true ->
    length (var_n (snd (steps (repeat Iteration k) w))) = (length (var_n w) + k)%nat
    /\ length (var_n1 (snd (steps (repeat Iteration k) w)))
       = (length (var_n1 w) + k)%nat.
Proof.
  induction k as [|k IH]; intros w Hpop Hr.
  - cbn [repeat steps snd]. lia.
  - cbn [repeat steps].
    destruct (step_iteration_running w Hpop Hr) as (b & u & g & ->).
    set (w1 := World _ _ _ _ _ _).
    destruct (IH w1 Hpop eq_refl) as [H1 H2].
    destruct (steps (repeat Iteration k) w1) as [es w2]. cbn [snd] in *.
    rewrite H1, H2. unfold w1. cbn [var_n var_n1]. rewrite !length_app.
    cbn [length]. lia.
Qed.

(** A rerun of the whole script while the flag is set records one pair and
    leaves the flag set. *)
Lemma rerun_while_running (k : nat) (w : world) :
  running w = true ->
  let w' := snd (whole_script_run NoClick (S k) w) in
  running w' = true
  /\ length (var_n w') = S (length (var_n w))
  /\ length (var_n1 w') = S (length (var_n1 w)).
Proof.
  intros Hr. cbv zeta. rewrite whole_script_run_unfold. cbv zeta.
  set (w1 := exec (click_handler NoClick) (exec script_top w)).
  destruct (plotting_loop_running k w1) as (b & u & g & E & _);
    [apply top_populated | apply top_distinct | exact Hr |].
  rewrite E. cbn [snd running var_n var_n1]. rewrite !length_app.
  cbn [length]. split; [reflexivity|].
  change (var_n w1) with (var_n w). change (var_n1 w1) with (var_n1 w). lia.
Qed.

Lemma reruns_while_running (k m : nat) :
  forall w : world,
    running w = true ->
    let w' := snd (whole_session (repeat (NoClick, S k) m) w) in
    length (var_n w') = (length (var_n w) + m)%nat
    /\ length (var_n1 w') = (length (var_n1 w) + m)%nat.
Proof.
  induction m as [|m IH]; intros w Hr; cbv zeta.
  - cbn [repeat whole_session snd]. lia.
  - cbn [repeat whole_session].
    pose proof (rerun_while_running k w Hr) as H. cbv zeta in H.
    destruct (whole_script_run NoClick (S k) w) as [e w1]. cbn [snd] in H.
    destruct H as (Hr1 & H1 & H2).
    specialize (IH w1 Hr1). cbv zeta in IH.
    destruct (whole_session (repeat (NoClick, S k) m) w1) as [es w2].
    cbn [snd] in *. lia.
Qed.

(** The run of a click on Start / Pause from the initial state. *)
Lemma a_started_run_shape (k : nat) (w : world) :
  running w = false ->
  let w' := snd (whole_script_run StartPause (S k) w) in
  running w' = true
  /\ length (var_n w') = S (length (var_n w))
  /\ length (var_n1 w') = S (length (var_n1 w)).
Proof.
  intros Hr. cbv zeta. rewrite whole_script_run_unfold. cbv zeta.
  set (w1 := exec (click_handler StartPause) (exec script_top w)).
  assert (Hr1 : running w1 = true).
  { unfold w1, exec. rewrite script_top_run. cbn [click_handler snd].
    rewrite toggle_run_run. cbn [snd running set_running]. now rewrite Hr. }
  destruct (plotting_loop_running k w1) as (b & u & g & E & _);
    [apply top_populated | apply top_distinct | exact Hr1 |].
  rewrite E. cbn [snd running var_n var_n1]. rewrite !length_app.
  cbn [length]. split; [reflexivity|].
  change (var_n w1) with (var_n w). change (var_n1 w1) with (var_n1 w). lia.
Qed.

End PlottedOperations.

(** C4.  With the plots taken into account: from the initial state, every
    finite sequence of toggle, reset and iteration operations, and every
    sequence of runs of the script, leaves histories of equal length.  While
    the flag is set an iteration appends exactly one value to each history
    (and the call of line 182 then ends the run with AttributeError; the
    session state keeps the pair); while it is cleared an iteration does
    nothing.  After a toggle and 100 iterations both histories have length
    100, and so they have after the 100 runs of the script that these
    iterations take. *)
Theorem histories_have_equal_lengths :
  (forall (gen : nat -> nat) (l : list action),
     balanced (snd (steps l (initial_state gen))))
  /\ (forall (gen : nat -> nat) (runs : list (click * nat)),
        balanced (snd (whole_session runs (initial_state gen))))
  /\ (forall w : world,
        populated w -> running w = true ->
        exists w' : world,
          step Iteration w = (Died AttributeError, w')
          /\ length (var_n w') = S (length (var_n w))
          /\ length (var_n1 w') = S (length (var_n1 w)))
  /\ (forall w : world, running w = false -> step Iteration w = (Finished, w))
  /\ (forall gen : nat -> nat,
        let w := snd (steps (Toggle :: repeat Iteration 100) (initial_state gen)) in
        length (var_n w) = 100%nat /\ length (var_n1 w) = 100%nat)
  /\ (forall (gen : nat -> nat) (k : nat),
        let w := snd (whole_session
                        ((StartPause, S k) :: repeat (NoClick, S k) 99)
                        (initial_state gen)) in
        length (var_n w) = 100%nat /\ length (var_n1 w) = 100%nat).
Proof.
  split; [|split; [|split; [|split; [|split]]]].
  - intros gen l. apply steps_preserve;
      [apply initial_populated | apply initial_balanced].
  - intros gen runs.
    destruct (whole_session_histories runs (initial_state gen)) as [Hinv _];
      [constructor|].
    exact (Forall2_length _ _ _ Hinv).
  - intros w Hpop Hr.
    destruct (step_iteration_running w Hpop Hr) as (b & u & g & E).
    eexists. split; [exact E|]. cbn [var_n var_n1]. rewrite !length_app.
    cbn [length]. lia.
  - apply step_iteration_idle.
  - intros gen. cbv zeta. cbn [steps step]. unfold and_then.
    rewrite toggle_run_run.
    set (w1 := set_running _ _).
    destruct (steps_repeat_iteration 100 w1) as [H1 H2];
      [apply (initial_populated gen) | reflexivity |].
    destruct (steps (repeat Iteration 100) w1) as [es w2]. cbn [snd] in *.
    rewrite H1, H2. split; reflexivity.
  - intros gen k. cbv zeta. cbn [whole_session].
    pose proof (a_started_run_shape k (initial_state gen) eq_refl) as H0.
    cbv zeta in H0.
    destruct (whole_script_run StartPause (S k) (initial_state gen)) as [e w1].
    cbn [snd] in H0. destruct H0 as (Hr1 & H1 & H2).
    pose proof (reruns_while_running k 99 w1 Hr1) as H. cbv zeta in H.
    destruct (whole_session (repeat (NoClick, S k) 99) w1) as [es w2].
    cbn [snd] in *. rewrite H1, H2 in H.
    cbn [length var_n var_n1 initial_state] in H. lia.
Qed.

Lemma histories_have_equal_lengths_witness :
  exists w' : world,
    step Iteration (set_running true (initial_state (fun i => 5 * i + 2)%nat))
    = (Died AttributeError, w')
    /\ length (var_n w') = 1%nat
    /\ length (var_n1 w') = 1%nat.
Proof.
  destruct histories_have_equal_lengths as (_ & _ & H & _).
  apply (H (set_running true (initial_state (fun i => 5 * i + 2)%nat))).
  - unfold populated. vm_compute. lia.
  - reflexivity.
Defined.

(** ** The size of a sample *)

Section Uniform.

















End Uniform.




(** * Binary64: the rounding and its properties *)

(** ** Powers of two *)

Section PowersOfTwo.

Lemma pow2_pos (t : Z) : 0 < 2 ^ t.
Proof. apply Qpower_0_lt. reflexivity. Qed.

Lemma pow2_plus (a b : Z) : 2 ^ (a + b) == 2 ^ a * 2 ^ b.
Proof. apply Qpower_plus. discriminate. Qed.

Lemma pow2_le (a b : Z) : (a <= b)%Z -> 2 ^ a <= 2 ^ b.
Proof. intros H. apply Qpower_le_compat_l; [exact H | discriminate]. Qed.

Lemma pow2_lt (a b : Z) : (a < b)%Z -> 2 ^ a < 2 ^ b.
Proof. intros H. apply Qpower_lt_compat_l; [exact H | reflexivity]. Qed.

Lemma pow2_lt_inv (a b : Z) : 2 ^ a < 2 ^ b -> (a < b)%Z.
Proof. intros H. apply (Qpower_lt_compat_l_inv 2); [exact H | reflexivity]. Qed.

Lemma pow2_Z (k : Z) : (0 <= k)%Z -> inject_Z (2 ^ k) == 2 ^ k.
Proof. intros H. now rewrite Zpower_Qpower. Qed.

(** Dividing by a power of two. *)
Lemma div_pow2 (q : Q) (a b : Z) : q * 2 ^ a / 2 ^ b == q * 2 ^ (a - b).
Proof.
  unfold Z.sub. rewrite pow2_plus, Qpower_opp. field.
  pose proof (pow2_pos b). lra.
Qed.

Lemma pow2_div (a b : Z) : 2 ^ a / 2 ^ b == 2 ^ (a - b).
Proof. rewrite <- (Qmult_1_l (2 ^ a)), div_pow2. ring. Qed.

Lemma div_pow2_le (p q : Q) (t : Z) : p <= q -> p / 2 ^ t <= q / 2 ^ t.
Proof.
  intros H. pose proof (pow2_pos t) as Ht.
  apply Qle_shift_div_l; [exact Ht|].
  assert (E : p / 2 ^ t * 2 ^ t == p) by (field; lra). now rewrite E.
Qed.

End PowersOfTwo.

(** ** The binade of a positive rational *)

Section Binade.

Import Binary64.

Lemma binade_spec (q : Q) :
  0 < q -> 2 ^ binade q <= q /\ q < 2 ^ (binade q + 1).
Proof.
  intros Hq. destruct q as [a b]. unfold binade. cbn [Qnum Qden].
  assert (Ha : (0 < a)%Z).
  { unfold Qlt in Hq. simpl in Hq. lia. }
  set (la := Z.log2 a). set (lb := Z.log2 (Zpos b)).
  destruct (Z.log2_spec a Ha) as [Ha1 Ha2]. fold la in Ha1, Ha2.
  destruct (Z.log2_spec (Zpos b) ltac:(lia)) as [Hb1 Hb2]. fold lb in Hb1, Hb2.
  assert (Hla : (0 <= la)%Z) by apply Z.log2_nonneg.
  assert (Hlb : (0 <= lb)%Z) by apply Z.log2_nonneg.
  assert (Eq : a # b == inject_Z a / inject_Z (Zpos b)) by apply Qmake_Qdiv.
  assert (Hbpos : 0 < inject_Z (Zpos b)) by (change 0 with (inject_Z 0); rewrite <- Zlt_Qlt; lia).
  assert (A1 : 2 ^ la <= inject_Z a).
  { rewrite <- pow2_Z by exact Hla. now rewrite <- Zle_Qle. }
  assert (A2 : inject_Z a < 2 ^ (la + 1)).
  { rewrite <- pow2_Z by lia. rewrite <- Zlt_Qlt. unfold Z.succ in Ha2. exact Ha2. }
  assert (B1 : 2 ^ lb <= inject_Z (Zpos b)).
  { rewrite <- pow2_Z by exact Hlb. now rewrite <- Zle_Qle. }
  assert (B2 : inject_Z (Zpos b) < 2 ^ (lb + 1)).
  { rewrite <- pow2_Z by lia. rewrite <- Zlt_Qlt. unfold Z.succ in Hb2. exact Hb2. }
  (* 2^(k-1) < q < 2^(k+1) with k = la - lb *)
  assert (Up : a # b < 2 ^ (la - lb + 1)).
  { rewrite Eq. apply Qlt_shift_div_r; [exact Hbpos|].
    apply Qlt_le_trans with (2 ^ (la + 1)); [exact A2|].
    replace (la + 1)%Z with ((la - lb + 1) + lb)%Z by lia.
    rewrite pow2_plus. pose proof (pow2_pos (la - lb + 1)). nra. }
  assert (Lo : 2 ^ (la - lb - 1) < a # b).
  { rewrite Eq. apply Qlt_shift_div_l; [exact Hbpos|].
    apply Qlt_le_trans with (2 ^ la); [|exact A1].
    replace la with ((la - lb - 1) + (lb + 1))%Z at 2 by lia.
    rewrite pow2_plus. pose proof (pow2_pos (la - lb - 1)). nra. }
  destruct (Qle_bool (2 ^ (la - lb)) (a # b)) eqn:E.
  - apply Qle_bool_iff in E. split; [exact E | exact Up].
  - split; [apply Qlt_le_weak, Lo|].
    replace (la - lb - 1 + 1)%Z with (la - lb)%Z by lia.
    apply Qnot_le_lt. intros H. apply Qle_bool_iff in H. congruence.
Qed.

Lemma binade_unique (q : Q) (e : Z) :
  2 ^ e <= q -> q < 2 ^ (e + 1) -> binade q = e.
Proof.
  intros H1 H2.
  assert (Hq : 0 < q) by (pose proof (pow2_pos e); lra).
  destruct (binade_spec q Hq) as [S1 S2].
  assert (L1 : (e < binade q + 1)%Z) by (apply pow2_lt_inv; lra).
  assert (L2 : (binade q < e + 1)%Z) by (apply pow2_lt_inv; lra).
  lia.
Qed.

Lemma binade_compat (p q : Q) : 0 < p -> p == q -> binade p = binade q.
Proof.
  intros Hp E. destruct (binade_spec p Hp) as [S1 S2].
  symmetry. apply binade_unique; rewrite <- E; assumption.
Qed.

Lemma binade_le (p q : Q) : 0 < p -> p <= q -> (binade p <= binade q)%Z.
Proof.
  intros Hp Hpq. destruct (binade_spec p Hp) as [P1 _].
  destruct (binade_spec q ltac:(lra)) as [_ Q2].
  assert (L : (binade p < binade q + 1)%Z) by (apply pow2_lt_inv; lra).
  lia.
Qed.

End Binade.

(** ** Rounding to the nearest integer *)

Section NearestInteger.

Import Binary64.

Lemma Qfloor_unique (x : Q) (z : Z) :
  inject_Z z <= x -> x < inject_Z (z + 1) -> Qfloor x = z.
Proof.
  intros H1 H2. pose proof (Qfloor_le x) as F1. pose proof (Qlt_floor x) as F2.
  assert (L1 : (z < Qfloor x + 1)%Z) by (rewrite Zlt_Qlt; lra).
  assert (L2 : (Qfloor x < z + 1)%Z) by (rewrite Zlt_Qlt; lra).
  lia.
Qed.

Lemma rne_compat (x y : Q) : x == y -> rne x = rne y.
Proof.
  intros E. unfold rne.
  assert (Ef : Qfloor x = Qfloor y) by now apply Qfloor_comp.
  rewrite Ef.
  assert (Ec : Qcompare (x - inject_Z (Qfloor y)) (1 # 2)
               = Qcompare (y - inject_Z (Qfloor y)) (1 # 2)).
  { apply Qcompare_comp; [now rewrite E | reflexivity]. }
  now rewrite Ec.
Qed.

(** [rne x] is the floor of [x] or the next integer, by the fractional part. *)
Lemma rne_cases (x : Q) :
  let k := Qfloor x in
  (rne x = k /\ x - inject_Z k < 1 # 2)
  \/ (rne x = (k + 1)%Z /\ 1 # 2 < x - inject_Z k)
  \/ (x - inject_Z k == 1 # 2
      /\ rne x = if Z.even k then k else (k + 1)%Z).
Proof.
  cbv zeta. unfold rne.
  destruct (Qcompare_spec (x - inject_Z (Qfloor x)) (1 # 2)) as [E|L|G].
  - right. right. split; [exact E | reflexivity].
  - left. split; [reflexivity | exact L].
  - right. left. split; [reflexivity | exact G].
Qed.

Lemma rne_Z (z : Z) : rne (inject_Z z) = z.
Proof.
  unfold rne. rewrite Qfloor_Z.
  assert (E : Qcompare (inject_Z z - inject_Z z) (1 # 2) = Lt).
  { apply (proj1 (Qlt_alt _ _)). lra. }
  now rewrite E.
Qed.

Lemma rne_between (x : Q) :
  (Qfloor x <= rne x <= Qfloor x + 1)%Z.
Proof.
  destruct (rne_cases x) as [[-> _]|[[-> _]|[_ ->]]]; try lia.
  destruct (Z.even (Qfloor x)); lia.
Qed.

Lemma rne_le (x y : Q) : x <= y -> (rne x <= rne y)%Z.
Proof.
  intros Hxy. pose proof (Qfloor_resp_le x y Hxy) as Hf.
  pose proof (rne_between x) as Bx. pose proof (rne_between y) as By.
  destruct (Z.eq_dec (Qfloor x) (Qfloor y)) as [E|N]; [|lia].
  destruct (rne_cases x) as [[Ex _]|[[Ex Fx]|[Fx Ex]]]; [lia| |].
  - destruct (rne_cases y) as [[Ey Fy]|[[Ey _]|[Fy Ey]]].
    + rewrite <- E in Fy. lra.
    + lia.
    + rewrite <- E in Fy. lra.
  - destruct (rne_cases y) as [[Ey Fy]|[[Ey _]|[Fy Ey]]].
    + rewrite <- E in Fy. lra.
    + destruct (Z.even (Qfloor x)); lia.
    + rewrite Ex, Ey, E. lia.
Qed.

Lemma rne_nonneg (x : Q) : 0 <= x -> (0 <= rne x)%Z.
Proof. intros H. rewrite <- (rne_Z 0). now apply rne_le. Qed.

Lemma rne_opp (x : Q) : rne (- x) = (- rne x)%Z.
Proof.
  pose proof (Qfloor_le x) as F1. pose proof (Qlt_floor x) as F2.
  set (k := Qfloor x) in *. rewrite inject_Z_plus in F2. change (inject_Z 1) with 1 in F2.
  destruct (Qeq_dec x (inject_Z k)) as [Eint|Nint].
  - rewrite (rne_compat x _ Eint), rne_Z.
    assert (E : - x == inject_Z (- k)) by (rewrite inject_Z_opp, Eint; reflexivity).
    now rewrite (rne_compat _ _ E), rne_Z.
  - assert (Hf : Qfloor (- x) = (- k - 1)%Z).
    { apply Qfloor_unique.
      - unfold Z.sub. rewrite inject_Z_plus, !inject_Z_opp. change (inject_Z 1) with 1. lra.
      - replace (- k - 1 + 1)%Z with (- k)%Z by lia. rewrite inject_Z_opp.
        assert (inject_Z k < x) by (apply Qle_lt_or_eq in F1 as [L|E]; [exact L | symmetry in E; contradiction]).
        lra. }
    assert (Ek : inject_Z (- k - 1) == - inject_Z k - 1).
    { unfold Z.sub. rewrite inject_Z_plus, !inject_Z_opp. reflexivity. }
    fold k in F1.
    destruct (rne_cases x) as [[Ex Fx]|[[Ex Fx]|[Fx Ex]]]; fold k in Ex, Fx; rewrite Ex.
    + destruct (rne_cases (- x)) as [[Ey Fy]|[[Ey Fy]|[Fy Ey]]];
        rewrite Hf in *; rewrite Ek in Fy; try lra. lia.
    + destruct (rne_cases (- x)) as [[Ey Fy]|[[Ey Fy]|[Fy Ey]]];
        rewrite Hf in *; rewrite Ek in Fy; try lra. lia.
    + destruct (rne_cases (- x)) as [[Ey Fy]|[[Ey Fy]|[Fy Ey]]];
        rewrite Hf in *; rewrite Ek in Fy; try lra.
      rewrite Ey. replace (- k - 1)%Z with (- (k + 1))%Z by lia.
      rewrite Z.even_opp, Z.even_add. change (Z.even 1) with false.
      destruct (Z.even k); simpl; lia.
Qed.

End NearestInteger.

(** ** Rounding to binary64 *)

Section Rounding.

Import Binary64.

Lemma Qle_bool_compat (a a' b b' : Q) :
  a == a' -> b == b' -> Qle_bool a b = Qle_bool a' b'.
Proof.
  intros Ea Eb.
  destruct (Qle_bool a b) eqn:E1, (Qle_bool a' b') eqn:E2; try reflexivity.
  - apply Qle_bool_iff in E1. rewrite Ea, Eb in E1. apply Qle_bool_iff in E1. congruence.
  - apply Qle_bool_iff in E2. rewrite <- Ea, <- Eb in E2. apply Qle_bool_iff in E2. congruence.
Qed.

Lemma Qeq_bool_compat (a a' b b' : Q) :
  a == a' -> b == b' -> Qeq_bool a b = Qeq_bool a' b'.
Proof.
  intros Ea Eb.
  destruct (Qeq_bool a b) eqn:E1, (Qeq_bool a' b') eqn:E2; try reflexivity.
  - apply Qeq_bool_iff in E1. rewrite Ea, Eb in E1. apply Qeq_bool_iff in E1. congruence.
  - apply Qeq_bool_iff in E2. rewrite <- Ea, <- Eb in E2. apply Qeq_bool_iff in E2. congruence.
Qed.

Lemma round_at_compat (t : Z) (p q : Q) : p == q -> round_at t p = round_at t q.
Proof.
  intros E. unfold round_at. apply Qred_complete.
  assert (Er : rne (p / 2 ^ t) = rne (q / 2 ^ t)) by (apply rne_compat; now rewrite E).
  now rewrite Er.
Qed.

Lemma round_at_opp (t : Z) (q : Q) : round_at t (- q) = - round_at t q.
Proof.
  unfold round_at. rewrite <- Qred_opp. apply Qred_complete.
  assert (E : - q / 2 ^ t == - (q / 2 ^ t)).
  { unfold Qdiv. ring. }
  rewrite (rne_compat _ _ E), rne_opp, inject_Z_opp. ring.
Qed.

Lemma Qabs_positive (q : Q) : ~ q == 0 -> 0 < Qabs q.
Proof.
  intros H. apply Qabs_case; intros Hs.
  - apply Qle_lt_or_eq in Hs as [L|E]; [exact L | symmetry in E; contradiction].
  - apply Qle_lt_or_eq in Hs as [L|E]; [lra | contradiction].
Qed.

Lemma ulp_exponent_compat (p q : Q) :
  ~ p == 0 -> p == q -> ulp_exponent p = ulp_exponent q.
Proof.
  intros Hp E. unfold ulp_exponent.
  rewrite (binade_compat (Qabs p) (Qabs q)); [reflexivity | | now rewrite E].
  now apply Qabs_positive.
Qed.

Lemma ulp_exponent_opp (q : Q) : ~ q == 0 -> ulp_exponent (- q) = ulp_exponent q.
Proof.
  intros Hq. unfold ulp_exponent.
  rewrite (binade_compat (Qabs (- q)) (Qabs q)); [reflexivity | | apply Qabs_opp].
  apply Qabs_positive. intros H. apply Hq. lra.
Qed.

Lemma round_finite_compat (p q : Q) : p == q -> round_finite p = round_finite q.
Proof.
  intros E. unfold round_finite.
  rewrite (Qeq_bool_compat p q 0 0 E ltac:(reflexivity)).
  destruct (Qeq_bool q 0) eqn:Ez; [reflexivity|].
  apply Qeq_bool_neq in Ez.
  assert (Hp : ~ p == 0) by (rewrite E; exact Ez).
  rewrite (ulp_exponent_compat p q Hp E), (round_at_compat _ p q E).
  rewrite (Qle_bool_compat 0 0 p q ltac:(reflexivity) E). reflexivity.
Qed.

Lemma round_finite_zero (q : Q) : q == 0 -> round_finite q = Finite 0.
Proof. intros E. rewrite (round_finite_compat q 0 E). reflexivity. Qed.

Lemma round_finite_opp (q : Q) : round_finite (- q) = f_neg (round_finite q).
Proof.
  unfold round_finite.
  rewrite (Qeq_bool_compat (- q) (- q) 0 (- 0)) by reflexivity.
  destruct (Qeq_bool q 0) eqn:Ez.
  - apply Qeq_bool_iff in Ez.
    assert (E : Qeq_bool (- q) (- 0) = true) by (apply Qeq_bool_iff; rewrite Ez; reflexivity).
    rewrite E. reflexivity.
  - pose proof (Qeq_bool_neq _ _ Ez) as Hq.
    assert (E : Qeq_bool (- q) (- 0) = false).
    { destruct (Qeq_bool (- q) (- 0)) eqn:E'; [|reflexivity].
      apply Qeq_bool_iff in E'. exfalso. apply Hq. lra. }
    rewrite E, (ulp_exponent_opp q Hq), round_at_opp.
    set (r := round_at (ulp_exponent q) q).
    rewrite (Qle_bool_compat (2 ^ 1024) (2 ^ 1024) (Qabs (- r)) (Qabs r))
      by (reflexivity || apply Qabs_opp).
    destruct (Qle_bool (2 ^ 1024) (Qabs r)); [|reflexivity].
    destruct (Qle_bool 0 q) eqn:E1, (Qle_bool 0 (- q)) eqn:E2; try reflexivity.
    + apply Qle_bool_iff in E1, E2. exfalso. apply Hq. lra.
    + exfalso.
      assert (N1 : ~ 0 <= q) by (intros H1; apply Qle_bool_iff in H1; congruence).
      assert (N2 : ~ 0 <= - q) by (intros H2; apply Qle_bool_iff in H2; congruence).
      lra.
Qed.

(** The shape of the rounding of a positive number. *)
Lemma round_finite_pos (q : Q) :
  0 < q ->
  let t := Z.max (binade q - 52) (-1074) in
  let m := rne (q / 2 ^ t) in
  (0 <= m)%Z
  /\ round_finite q
     = if Qle_bool (2 ^ 1024) (inject_Z m * 2 ^ t) then PosInf
       else Finite (Qred (inject_Z m * 2 ^ t)).
Proof.
  intros Hq t m.
  assert (Hm : (0 <= m)%Z).
  { apply rne_nonneg. apply Qle_shift_div_l; [apply pow2_pos | lra]. }
  split; [exact Hm|].
  unfold round_finite.
  assert (Ez : Qeq_bool q 0 = false).
  { destruct (Qeq_bool q 0) eqn:E; [|reflexivity]. apply Qeq_bool_iff in E. lra. }
  rewrite Ez.
  assert (Et : ulp_exponent q = t).
  { unfold ulp_exponent, t. rewrite (binade_compat (Qabs q) q); [reflexivity | | ].
    - apply Qabs_positive. lra.
    - apply Qabs_pos. lra. }
  rewrite Et. fold m. unfold round_at. fold m.
  set (v := inject_Z m * 2 ^ t).
  assert (Hv : 0 <= v).
  { unfold v. apply Qmult_le_0_compat; [|apply Qlt_le_weak, pow2_pos].
    change 0 with (inject_Z 0). now rewrite <- Zle_Qle. }
  rewrite (Qle_bool_compat (2 ^ 1024) (2 ^ 1024) (Qabs (Qred v)) v);
    [| reflexivity | rewrite Qred_correct; now apply Qabs_pos].
  assert (E0 : Qle_bool 0 q = true) by (apply Qle_bool_iff; lra).
  now rewrite E0.
Qed.

End Rounding.

Section Order.

Import Binary64.

Lemma inject_Z_nonneg (m : Z) : (0 <= m)%Z -> 0 <= inject_Z m.
Proof. intros H. change 0 with (inject_Z 0). now rewrite <- Zle_Qle. Qed.

Lemma scaled_le (m m' : Z) (t : Z) :
  (m <= m')%Z -> inject_Z m * 2 ^ t <= inject_Z m' * 2 ^ t.
Proof.
  intros H. apply Qmult_le_compat_r; [|apply Qlt_le_weak, pow2_pos].
  now rewrite <- Zle_Qle.
Qed.

Lemma round_nonneg (q : Q) : 0 <= q -> nonneg (round_finite q).
Proof.
  intros Hq. apply Qle_lt_or_eq in Hq as [Hpos|Hz].
  - destruct (round_finite_pos q Hpos) as [Hm ->].
    destruct (Qle_bool _ _); [now left|]. right. eexists. split; [reflexivity|].
    rewrite Qred_correct. apply Qmult_le_0_compat;
      [now apply inject_Z_nonneg | apply Qlt_le_weak, pow2_pos].
  - right. exists 0. split; [|apply Qle_refl]. apply round_finite_zero. now symmetry.
Qed.

(** The value before the overflow test is monotone on positive numbers. *)
Lemma rounded_value_le (p q : Q) :
  0 < p -> p <= q ->
  let tp := Z.max (binade p - 52) (-1074) in
  let tq := Z.max (binade q - 52) (-1074) in
  inject_Z (rne (p / 2 ^ tp)) * 2 ^ tp <= inject_Z (rne (q / 2 ^ tq)) * 2 ^ tq.
Proof.
  intros Hp Hpq tp tq.
  assert (Hq : 0 < q) by lra.
  pose proof (binade_le p q Hp Hpq) as He.
  destruct (binade_spec p Hp) as [P1 P2]. destruct (binade_spec q Hq) as [Q1 Q2].
  set (ep := binade p) in *. set (eq := binade q) in *.
  destruct (Z.eq_dec tp tq) as [E|N].
  - rewrite E. apply scaled_le, rne_le, div_pow2_le, Hpq.
  - assert (Htq : tq = (eq - 52)%Z) by lia.
    assert (Hlt : (ep + 1 <= eq)%Z) by lia.
    assert (Hd : (0 <= eq - tp)%Z) by lia.
    apply Qle_trans with (2 ^ eq).
    + assert (Hb : p / 2 ^ tp <= inject_Z (2 ^ (eq - tp))).
      { rewrite (pow2_Z (eq - tp)) by exact Hd. rewrite <- pow2_div.
        apply div_pow2_le. pose proof (pow2_le (ep + 1) eq Hlt). lra. }
      apply rne_le in Hb. rewrite rne_Z in Hb.
      apply (scaled_le _ _ tp) in Hb.
      rewrite (pow2_Z (eq - tp)) in Hb by exact Hd.
      rewrite <- pow2_plus in Hb.
      replace (eq - tp + tp)%Z with eq in Hb by lia. exact Hb.
    + assert (Hb : inject_Z (2 ^ 52) <= q / 2 ^ tq).
      { rewrite (pow2_Z 52) by lia. replace 52%Z with (eq - tq)%Z by lia.
        rewrite <- pow2_div. apply div_pow2_le, Q1. }
      apply rne_le in Hb. rewrite rne_Z in Hb.
      apply (scaled_le _ _ tq) in Hb.
      rewrite (pow2_Z 52) in Hb by lia.
      rewrite <- pow2_plus in Hb.
      replace (52 + tq)%Z with eq in Hb by lia. exact Hb.
Qed.

Lemma round_finite_mono (p q : Q) :
  0 <= p -> p <= q -> f_le (round_finite p) (round_finite q) = true.
Proof.
  intros Hp Hpq. apply Qle_lt_or_eq in Hp as [Hpos|Hz].
  - pose proof (rounded_value_le p q Hpos Hpq) as Hv. cbv zeta in Hv.
    destruct (round_finite_pos p Hpos) as [_ ->].
    destruct (round_finite_pos q ltac:(lra)) as [_ ->].
    set (vp := inject_Z (rne (p / 2 ^ Z.max (binade p - 52) (-1074)))
               * 2 ^ Z.max (binade p - 52) (-1074)) in *.
    set (vq := inject_Z (rne (q / 2 ^ Z.max (binade q - 52) (-1074)))
               * 2 ^ Z.max (binade q - 52) (-1074)) in *.
    clearbody vp vq. set (big := 2 ^ 1024) in *. clearbody big.
    destruct (Qle_bool big vp) eqn:Ep.
    + apply Qle_bool_iff in Ep.
      assert (Eq : Qle_bool big vq = true)
        by (apply Qle_bool_iff; apply Qle_trans with vp; assumption).
      rewrite Eq. reflexivity.
    + destruct (Qle_bool big vq); [reflexivity|].
      cbn [f_le]. apply Qle_bool_iff. now rewrite !Qred_correct.
  - rewrite (round_finite_zero p) by now symmetry.
    destruct (round_nonneg q ltac:(lra)) as [->|(r & -> & Hr)]; [reflexivity|].
    cbn [f_le]. now apply Qle_bool_iff.
Qed.

(** A multiple of [2 ^ t] with at most 53 bits is its own rounding. *)
Lemma representable_fixed (m t : Z) :
  (0 < m <= 2 ^ 53)%Z -> (-1074 <= t)%Z ->
  inject_Z m * 2 ^ t < 2 ^ 1024 ->
  round_finite (inject_Z m * 2 ^ t) = Finite (Qred (inject_Z m * 2 ^ t)).
Proof.
  intros Hm Ht Hov. set (v := inject_Z m * 2 ^ t) in *.
  assert (Hm' : 0 < inject_Z m) by (change 0 with (inject_Z 0); rewrite <- Zlt_Qlt; lia).
  assert (Hv : 0 < v) by (unfold v; pose proof (pow2_pos t); nra).
  destruct (round_finite_pos v Hv) as [_ ->].
  destruct (binade_spec v Hv) as [V1 V2].
  set (e := binade v) in *. set (t' := Z.max (e - 52) (-1074)).
  assert (Hint : exists z : Z, v / 2 ^ t' == inject_Z z).
  { destruct (Z.eq_dec m (2 ^ 53)%Z) as [E|N].
    - assert (Ev : v == 2 ^ (53 + t)).
      { unfold v. rewrite E, (pow2_Z 53) by lia. now rewrite pow2_plus. }
      assert (Ee : e = (53 + t)%Z).
      { apply binade_unique; rewrite Ev; [apply Qle_refl | apply pow2_lt; lia]. }
      exists (2 ^ 52)%Z. rewrite Ev, pow2_div, (pow2_Z 52) by lia.
      replace (53 + t - t')%Z with 52%Z by lia. reflexivity.
    - assert (Hlt : v < 2 ^ (53 + t)).
      { unfold v. rewrite pow2_plus. rewrite <- (pow2_Z 53) by lia.
        apply Qmult_lt_compat_r; [apply pow2_pos|]. rewrite <- Zlt_Qlt. lia. }
      assert (He : (e < 53 + t)%Z) by (apply pow2_lt_inv; lra).
      assert (Hd : (0 <= t - t')%Z) by lia.
      exists (m * 2 ^ (t - t'))%Z.
      unfold v. rewrite div_pow2, inject_Z_mult, (pow2_Z (t - t')) by exact Hd.
      reflexivity. }
  destruct Hint as [z Hz].
  rewrite (rne_compat _ _ Hz), rne_Z.
  assert (Eback : inject_Z z * 2 ^ t' == v).
  { rewrite <- Hz. field. pose proof (pow2_pos t'). lra. }
  rewrite (Qle_bool_compat (2 ^ 1024) (2 ^ 1024) _ v ltac:(reflexivity) Eback).
  assert (Ef : Qle_bool (2 ^ 1024) v = false).
  { destruct (Qle_bool (2 ^ 1024) v) eqn:E; [|reflexivity].
    apply Qle_bool_iff in E. lra. }
  rewrite Ef. f_equal. now apply Qred_complete.
Qed.

Lemma round64_neg (a : float64) : round64 (f_neg a) = f_neg (round64 a).
Proof. destruct a; cbn [f_neg round64]; [apply round_finite_opp | reflexivity..]. Qed.

Lemma round_finite_idempotent_pos (q : Q) :
  0 < q -> round64 (round_finite q) = round_finite q.
Proof.
  intros Hq. destruct (round_finite_pos q Hq) as [Hm E].
  destruct (binade_spec q Hq) as [S1 S2].
  set (t := Z.max (binade q - 52) (-1074)) in *.
  set (m := rne (q / 2 ^ t)) in *.
  rewrite E. destruct (Qle_bool (2 ^ 1024) (inject_Z m * 2 ^ t)) eqn:Eov;
    [reflexivity|].
  cbn [round64]. rewrite (round_finite_compat _ _ (Qred_correct _)).
  destruct (Z.eq_dec m 0%Z) as [Z0|NZ].
  - assert (Ev : inject_Z m * 2 ^ t == 0) by (rewrite Z0; ring).
    rewrite (round_finite_zero _ Ev). f_equal. symmetry.
    apply (Qred_complete _ 0 Ev).
  - apply representable_fixed; [|lia|].
    + split; [lia|]. rewrite <- (rne_Z (2 ^ 53)%Z). apply rne_le.
      rewrite (pow2_Z 53) by lia. apply Qle_shift_div_r; [apply pow2_pos|].
      rewrite <- pow2_plus.
      apply Qle_trans with (2 ^ (binade q + 1)); [lra|]. apply pow2_le. lia.
    + apply Qnot_le_lt. intros H. apply Qle_bool_iff in H. congruence.
Qed.

Theorem round64_idempotent (a : float64) : round64 (round64 a) = round64 a.
Proof.
  destruct a as [q| | |]; try reflexivity. cbn [round64].
  destruct (Q_dec 0 q) as [[Hpos|Hneg]|Hz].
  - now apply round_finite_idempotent_pos.
  - assert (E : q == - - q) by ring.
    rewrite (round_finite_compat q _ E), round_finite_opp, round64_neg.
    f_equal. apply round_finite_idempotent_pos. lra.
  - rewrite (round_finite_zero q) by now symmetry. reflexivity.
Qed.

End Order.

(** ** The operations on rounded values *)

Section Operations64.

Import Binary64.

Lemma add_zero_l (a : float64) : round64 a = a -> add (Finite 0) a = a.
Proof.
  intros Ha. unfold add. destruct a as [q| | |]; try reflexivity.
  cbn [f_add round64]. cbn [round64] in Ha.
  rewrite <- Ha. apply round_finite_compat. ring.
Qed.

Lemma div_one (a : float64) : round64 a = a -> div a (Finite 1) = a.
Proof.
  intros Ha. unfold div. destruct a as [q| | |]; try reflexivity.
  cbn [f_div round64]. cbn [round64] in Ha.
  change (Qeq_bool 1 0) with false. cbv iota.
  rewrite <- Ha. apply round_finite_compat. field.
Qed.

Lemma sub_self (q : Q) : sub (Finite q) (Finite q) = Finite 0.
Proof.
  unfold sub, f_sub. cbn [f_neg f_add round64].
  apply round_finite_zero. ring.
Qed.

Lemma of_Z_0 : of_Z 0 = Finite 0.
Proof. reflexivity. Qed.

Lemma of_Z_1 : of_Z 1 = Finite 1.
Proof. vm_compute. reflexivity. Qed.

Lemma np_sum_one (a : float64) : round64 a = a -> np_sum [a] = a.
Proof.
  intros Ha. unfold np_sum. cbn [length pairwise_sum].
  change (1 <? 8)%nat with true. cbv iota. cbn [fold_left].
  now rewrite (add_zero_l a Ha), (add_zero_l a Ha).
Qed.

Lemma np_mean_one (a : float64) : round64 a = a -> np_mean [a] = a.
Proof.
  intros Ha. unfold np_mean. rewrite (np_sum_one a Ha).
  cbn [length]. change (Z.of_nat 1) with 1%Z. rewrite of_Z_1.
  now apply div_one.
Qed.

Lemma stored_rounded (v : number) (a : float64) :
  stored v = Some a -> round64 a = a.
Proof.
  destruct v as [z|f]; cbn [stored].
  - destruct (fits_int64 z); [|discriminate]. intros [= <-].
    apply round64_idempotent.
  - intros [= <-]. apply round64_idempotent.
Qed.

Lemma np_array_one (v : number) (a : float64) :
  stored v = Some a -> np_array [v] = Some [a].
Proof.
  intros Hs. unfold np_array. cbn [length forallb].
  change (8192 <? Z.of_nat 1)%Z with false.
  change (2 ^ 63 <=? Z.of_nat 1)%Z with false.
  rewrite Bool.andb_false_r. cbn [stored_all]. now rewrite Hs.
Qed.

(** The estimators on a sample of one stored value. *)
Lemma variance_n_one (v : number) (a : float64) :
  stored v = Some a ->
  variance_n [v] = Returns (if a is Finite _ then Finite 0 else NaN)
  /\ variance_n1 [v] = Returns NaN.
Proof.
  intros Hs. pose proof (stored_rounded v a Hs) as Ha.
  unfold variance_n, variance_n1. rewrite (np_array_one v a Hs). cbv zeta.
  rewrite (np_mean_one a Ha). cbn [np_sub_scalar np_square map].
  assert (Hsq : mul (sub a a) (sub a a) = if a is Finite _ then Finite 0 else NaN).
  { destruct a as [q| | |]; try reflexivity.
    rewrite sub_self. reflexivity. }
  rewrite Hsq.
  assert (Hr : round64 (if a is Finite _ then Finite 0 else NaN)
               = if a is Finite _ then Finite 0 else NaN)
    by (destruct a; reflexivity).
  rewrite (np_mean_one _ Hr), (np_sum_one _ Hr).
  split; [reflexivity|]. cbn [length]. change (Z.of_nat 1 - 1)%Z with 0%Z.
  rewrite of_Z_0. destruct a; reflexivity.
Qed.

End Operations64.

(** ** What NumPy's summation preserves *)

Section Summation.

Import Binary64.

Variable P : float64 -> Prop.
Hypothesis P_zero : P (Finite 0).
Hypothesis P_add : forall a b, P a -> P b -> P (add a b).

Lemma fold_add_closed (l : list float64) :
  forall acc, P acc -> Forall P l -> P (fold_left add l acc).
Proof.
  induction l as [|v l IH]; intros acc Hacc Hl; [exact Hacc|].
  inversion Hl; subst. cbn [fold_left]. apply IH; auto.
Qed.

Lemma add_lanes_closed (r : list float64) :
  forall block, Forall P r -> Forall P block -> Forall P (add_lanes r block).
Proof.
  induction r as [|x r IH]; intros block Hr Hb; [constructor|].
  inversion Hr; subst. destruct block as [|y block]; [exact Hr|].
  inversion Hb; subst. cbn [add_lanes]. constructor; auto.
Qed.

Lemma lanes_loop_closed (n : nat) :
  forall r a, (length a <= n)%nat -> Forall P r -> Forall P a ->
    Forall P (fst (lanes_loop r a)) /\ Forall P (snd (lanes_loop r a)).
Proof.
  induction n as [|n IH]; intros r a Hn Hr Ha.
  - destruct a; [|simpl in Hn; lia]. now split.
  - do 8 (destruct a as [|? a]; [now split|]).
    cbn [lanes_loop]. apply IH.
    + simpl in Hn. lia.
    + apply add_lanes_closed; [exact Hr|].
      repeat (apply Forall_cons_1 in Ha as [? Ha]).
      repeat constructor; assumption.
    + repeat (apply Forall_cons_1 in Ha as [? Ha]). exact Ha.
Qed.

Lemma combine_lanes_closed (r : list float64) :
  Forall P r -> P (combine_lanes r).
Proof.
  intros Hr. unfold combine_lanes.
  do 8 (destruct r as [|? r]; [now apply fold_add_closed|]).
  destruct r; [|now apply fold_add_closed].
  repeat (apply Forall_cons_1 in Hr as [? Hr]). auto 10.
Qed.

Lemma block_sum_closed (a : list float64) : Forall P a -> P (block_sum a).
Proof.
  intros Ha. unfold block_sum.
  destruct (lanes_loop_closed (length (drop 8 a)) (take 8 a) (drop 8 a))
    as [H1 H2]; [lia | now apply Forall_take | now apply Forall_drop |].
  destruct (lanes_loop (take 8 a) (drop 8 a)) as [r rest]. cbn [fst snd] in *.
  apply fold_add_closed; [now apply combine_lanes_closed | exact H2].
Qed.

Lemma pairwise_sum_closed (fuel : nat) :
  forall a, Forall P a -> P (pairwise_sum fuel a).
Proof.
  induction fuel as [|fuel IH]; intros a Ha; cbn [pairwise_sum];
    destruct (length a <? 8)%nat; try (now apply fold_add_closed);
    destruct (length a <=? 128)%nat; try (now apply block_sum_closed).
  apply P_add; apply IH; [now apply Forall_take | now apply Forall_drop].
Qed.

Lemma np_sum_closed (a : list float64) : Forall P a -> P (np_sum a).
Proof. intros Ha. apply P_add; [exact P_zero | now apply pairwise_sum_closed]. Qed.

End Summation.

(** ** Values that are not negative *)

Section NonNegative.

Import Binary64.

Lemma round64_nan (a : float64) : round64 a = NaN -> a = NaN.
Proof.
  destruct a as [q| | |]; try discriminate; [|reflexivity].
  cbn [round64]. unfold round_finite.
  destruct (Qeq_bool q 0); [discriminate|].
  destruct (Qle_bool _ _); [|discriminate].
  destruct (Qle_bool 0 q); discriminate.
Qed.

Lemma nonneg_zero : nonneg (Finite 0).
Proof. right. exists 0. split; [reflexivity | apply Qle_refl]. Qed.

Lemma nonneg_round (a : float64) : nonneg a -> nonneg (round64 a).
Proof.
  intros [->|(q & -> & Hq)]; [now left|]. now apply round_nonneg.
Qed.

Lemma nonneg_add (a b : float64) : nonneg a -> nonneg b -> nonneg (add a b).
Proof.
  intros Ha Hb. apply nonneg_round.
  destruct Ha as [->|(p & -> & Hp)], Hb as [->|(q & -> & Hq)];
    try (now left).
  right. exists (p + q). split; [reflexivity | lra].
Qed.

Lemma nonneg_square (d : float64) : d <> NaN -> nonneg (mul d d).
Proof.
  intros Hd. apply nonneg_round. destruct d as [q| | |].
  - right. exists (q * q). split; [reflexivity | nra].
  - left. reflexivity.
  - left. reflexivity.
  - congruence.
Qed.

Lemma nonneg_div (s : float64) (d : Q) :
  nonneg s -> 0 < d -> nonneg (div s (Finite d)).
Proof.
  intros Hs Hd. apply nonneg_round. destruct Hs as [->|(q & -> & Hq)].
  - left. cbn [f_div]. unfold Qsgn.
    now rewrite (proj1 (Qgt_alt d 0) Hd).
  - right. cbn [f_div].
    assert (E : Qeq_bool d 0 = false).
    { destruct (Qeq_bool d 0) eqn:E; [|reflexivity]. apply Qeq_bool_iff in E. lra. }
    rewrite E. exists (q / d). split; [reflexivity|].
    apply Qle_shift_div_l; lra.
Qed.

Lemma nonneg_le (v : float64) : nonneg v -> f_le (Finite 0) v = true.
Proof.
  intros [->|(q & -> & Hq)]; [reflexivity|]. cbn [f_le]. now apply Qle_bool_iff.
Qed.

Lemma nonneg_not_nan (v : float64) : nonneg v -> v <> NaN.
Proof. intros [->|(q & -> & _)]; discriminate. Qed.

(** The conversion of a positive machine integer is a finite value, at
    least 1, and it grows with the integer. *)
Lemma of_Z_positive (z : Z) :
  (1 <= z < 2 ^ 63)%Z -> exists d : Q, of_Z z = Finite d /\ 1 <= d.
Proof.
  intros Hz. unfold of_Z, of_int. cbn [round64].
  assert (H1 : f_le (round_finite 1) (round_finite (inject_Z z)) = true).
  { apply round_finite_mono; [lra|]. change 1 with (inject_Z 1).
    rewrite <- Zle_Qle. lia. }
  assert (H2 : f_le (round_finite (inject_Z z)) (round_finite (inject_Z (2 ^ 63))) = true).
  { apply round_finite_mono.
    - change 0 with (inject_Z 0). rewrite <- Zle_Qle. lia.
    - rewrite <- Zle_Qle. lia. }
  assert (E1 : round_finite 1 = Finite 1) by (vm_compute; reflexivity).
  assert (E2 : round_finite (inject_Z (2 ^ 63)) = Finite (inject_Z (2 ^ 63)))
    by (vm_compute; reflexivity).
  rewrite E1 in H1. rewrite E2 in H2.
  destruct (round_finite (inject_Z z)) as [d| | |]; try discriminate.
  exists d. split; [reflexivity|]. cbn [f_le] in H1. now apply Qle_bool_iff.
Qed.

Lemma of_Z_le (z z' : Z) (d d' : Q) :
  (0 <= z <= z')%Z -> of_Z z = Finite d -> of_Z z' = Finite d' -> d <= d'.
Proof.
  intros Hz E E'. unfold of_Z, of_int in *. cbn [round64] in *.
  assert (H : f_le (round_finite (inject_Z z)) (round_finite (inject_Z z')) = true).
  { apply round_finite_mono.
    - change 0 with (inject_Z 0). rewrite <- Zle_Qle. lia.
    - rewrite <- Zle_Qle. lia. }
  rewrite E, E' in H. cbn [f_le] in H. now apply Qle_bool_iff.
Qed.

(** A quotient by a larger positive divisor is not larger. *)
Lemma div_antitone (s : float64) (d d' : Q) :
  nonneg s -> 0 < d -> d <= d' ->
  f_le (div s (Finite d')) (div s (Finite d)) = true.
Proof.
  intros Hs Hd Hdd'. unfold div. destruct Hs as [->|(q & -> & Hq)].
  - cbn [f_div]. unfold Qsgn.
    rewrite (proj1 (Qgt_alt d 0) Hd), (proj1 (Qgt_alt d' 0) ltac:(lra)).
    reflexivity.
  - cbn [f_div].
    assert (E : Qeq_bool d 0 = false).
    { destruct (Qeq_bool d 0) eqn:E; [|reflexivity]. apply Qeq_bool_iff in E. lra. }
    assert (E' : Qeq_bool d' 0 = false).
    { destruct (Qeq_bool d' 0) eqn:E'; [|reflexivity]. apply Qeq_bool_iff in E'. lra. }
    rewrite E, E'. cbn [round64]. apply round_finite_mono.
    + apply Qle_shift_div_l; lra.
    + apply Qle_shift_div_l; [lra|].
      assert (Eq : q / d' * d == q * (d / d')) by (field; lra). rewrite Eq.
      assert (Hr : d / d' <= 1) by (apply Qle_shift_div_r; lra).
      set (r := d / d') in *. nra.
Qed.

End NonNegative.

(** ** The estimators in binary64 *)

Section Estimators64.

Import Binary64.

Lemma stored_all_length (x : list number) :
  forall a, stored_all x = Some a -> length a = length x.
Proof.
  induction x as [|v x IH]; intros a; cbn [stored_all].
  - now intros [= <-].
  - destruct (stored v) as [f|]; [|discriminate].
    destruct (stored_all x) as [a'|]; [|discriminate].
    intros [= <-]. cbn [length]. now rewrite (IH a' eq_refl).
Qed.

Lemma np_array_length (x : list number) (a : list float64) :
  np_array x = Some a ->
  length a = length x /\ (Z.of_nat (length x) < 2 ^ 63)%Z.
Proof.
  unfold np_array.
  destruct (forallb is_int x && (8192 <? Z.of_nat (length x))%Z); [discriminate|].
  destruct (2 ^ 63 <=? Z.of_nat (length x))%Z eqn:E; [discriminate|].
  intros H. split; [now apply stored_all_length|]. now apply Z.leb_gt.
Qed.

(** The code's two passes over the array are the deviations, squared. *)
Lemma squares_of_deviations (a : list float64) :
  np_sum (np_square (np_sub_scalar a (np_mean a))) = squared_deviations a.
Proof.
  unfold squared_deviations, np_square, np_sub_scalar. now rewrite map_map.
Qed.

Lemma variance_n_unfold (x : list number) (a : list float64) :
  np_array x = Some a -> variance_n x = Returns (variance_biased a).
Proof.
  intros H. unfold variance_n. rewrite H. cbv zeta. f_equal.
  unfold np_mean at 1. rewrite squares_of_deviations.
  unfold np_square, np_sub_scalar. now rewrite !length_map.
Qed.

Lemma variance_n1_unfold (x : list number) (a : list float64) :
  np_array x = Some a -> variance_n1 x = Returns (variance_unbiased a).
Proof.
  intros H. unfold variance_n1. rewrite H. cbv zeta. f_equal.
  rewrite squares_of_deviations.
  destruct (np_array_length x a H) as [<- _]. reflexivity.
Qed.

(** The deviation of a finite value from a mean that is a number is a
    number, and its square is not negative. *)
Lemma sub_not_nan (v m : float64) : finite v -> m <> NaN -> sub v m <> NaN.
Proof.
  intros [q ->] Hm E. apply round64_nan in E.
  destruct m; cbn in E; try discriminate. now apply Hm.
Qed.

Lemma rounded_squared_deviations_nonneg (a : list float64) :
  Forall finite a -> sample_mean a <> NaN -> nonneg (squared_deviations a).
Proof.
  intros Ha Hm. unfold squared_deviations.
  apply (np_sum_closed nonneg nonneg_zero nonneg_add).
  apply List.Forall_map. eapply Forall_impl; [exact Ha|].
  intros v Hv. cbv beta. apply nonneg_square. now apply sub_not_nan.
Qed.

(** Fewer than eight finite values are added one by one: the sum may
    overflow to an infinity, but it is a number. *)
Lemma fold_add_not_nan (l : list float64) :
  Forall finite l -> forall acc, acc <> NaN -> fold_left add l acc <> NaN.
Proof.
  induction 1 as [|v l [q ->] _ IH]; intros acc Hacc; cbn [fold_left];
    [exact Hacc|].
  apply IH. intros E. apply round64_nan in E.
  destruct acc; cbn in E; try discriminate. now apply Hacc.
Qed.

Lemma div_not_nan (s : float64) (d : Q) :
  s <> NaN -> 0 < d -> div s (Finite d) <> NaN.
Proof.
  intros Hs Hd E. apply round64_nan in E.
  assert (Ed : Qeq_bool d 0 = false).
  { destruct (Qeq_bool d 0) eqn:E0; [|reflexivity]. apply Qeq_bool_iff in E0. lra. }
  destruct s as [q| | |]; cbn [f_div] in E.
  - rewrite Ed in E. discriminate.
  - unfold Qsgn in E. rewrite (proj1 (Qgt_alt d 0) Hd) in E. discriminate.
  - unfold Qsgn in E. rewrite (proj1 (Qgt_alt d 0) Hd) in E. discriminate.
  - now apply Hs.
Qed.

Lemma pairwise_sum_short (fuel : nat) (a : list float64) :
  (length a < 8)%nat -> pairwise_sum fuel a = fold_left add a (Finite 0).
Proof.
  intros H. destruct fuel; cbn [pairwise_sum];
    now destruct (Nat.ltb_spec (length a) 8) as [_|H']; [|lia].
Qed.

Lemma short_mean_not_nan (a : list float64) :
  Forall finite a -> (1 <= length a < 8)%nat -> sample_mean a <> NaN.
Proof.
  intros Ha Hn. unfold sample_mean.
  assert (Hz : (1 <= Z.of_nat (length a) < 2 ^ 63)%Z).
  { change (2 ^ 63)%Z with 9223372036854775808%Z. lia. }
  destruct (of_Z_positive (Z.of_nat (length a)) Hz) as (d & -> & Hd).
  apply div_not_nan; [|lra].
  unfold np_sum. rewrite pairwise_sum_short by lia.
  pose proof (fold_add_not_nan a Ha (Finite 0) ltac:(discriminate)) as H.
  intros E. apply round64_nan in E.
  destruct (fold_left add a (Finite 0)); cbn in E; try discriminate.
  now apply H.
Qed.

(** Values that are not negative have a sum, and a mean, that is not
    negative: no cancellation of infinities can happen. *)
Lemma nonneg_mean_not_nan (a : list float64) :
  Forall nonneg a -> (1 <= Z.of_nat (length a) < 2 ^ 63)%Z ->
  sample_mean a <> NaN.
Proof.
  intros Ha Hn. unfold sample_mean.
  assert (Hs : nonneg (np_sum a))
    by now apply (np_sum_closed nonneg nonneg_zero nonneg_add).
  destruct (of_Z_positive (Z.of_nat (length a)) Hn) as (d & -> & Hd).
  apply div_not_nan; [now apply nonneg_not_nan | lra].
Qed.

(** An integer of at most 53 bits is converted exactly. *)
Lemma of_Z_exact (z : Z) :
  (1 <= z <= 2 ^ 53)%Z -> exists d : Q, of_Z z = Finite d /\ d == inject_Z z.
Proof.
  intros Hz. unfold of_Z, of_int. cbn [round64].
  assert (E : inject_Z z == inject_Z z * 2 ^ 0) by (change (2 ^ 0) with 1; ring).
  rewrite (round_finite_compat _ _ E).
  rewrite (representable_fixed z 0); [| lia | lia |].
  - eexists. split; [reflexivity|]. rewrite Qred_correct. now symmetry.
  - rewrite <- E. apply Qle_lt_trans with (inject_Z (2 ^ 53)).
    + rewrite <- Zle_Qle. lia.
    + rewrite (pow2_Z 53) by lia. apply pow2_lt. lia.
Qed.

Lemma div_by_exact (s d d' : Q) :
  d == d' -> ~ d' == 0 -> div (Finite s) (Finite d) = round64 (Finite (s / d')).
Proof.
  intros E N. unfold div. cbn [f_div].
  assert (Ed : Qeq_bool d 0 = false).
  { destruct (Qeq_bool d 0) eqn:E0; [|reflexivity]. apply Qeq_bool_iff in E0.
    exfalso. apply N. now rewrite <- E. }
  rewrite Ed. cbn [round64]. apply round_finite_compat. now rewrite E.
Qed.

(** Sums of zeros. *)
Lemma np_sum_zeros (a : list float64) :
  Forall (fun v => v = Finite 0) a -> np_sum a = Finite 0.
Proof.
  apply (np_sum_closed (fun v => v = Finite 0)); [reflexivity|].
  intros x y -> ->. reflexivity.
Qed.

Lemma div_zero (d : Q) : 0 < d -> div (Finite 0) (Finite d) = Finite 0.
Proof.
  intros Hd. unfold div. cbn [f_div].
  assert (Ed : Qeq_bool d 0 = false).
  { destruct (Qeq_bool d 0) eqn:E0; [|reflexivity]. apply Qeq_bool_iff in E0. lra. }
  rewrite Ed. cbn [round64]. apply round_finite_zero. field. lra.
Qed.

End Estimators64.

(** ** What the estimators return

    In this section [variance_n], [variance_n1], [np_array], ... are those of
    the module [Binary64]. *)

Section Values64.

Import Binary64.

Lemma not_negative_zero : not_negative (Finite 0).
Proof. left. apply nonneg_zero. Qed.

Lemma not_negative_add (a b : float64) :
  not_negative a -> not_negative b -> not_negative (add a b).
Proof.
  intros [Ha| ->] [Hb| ->].
  - left. now apply nonneg_add.
  - right. destruct a; reflexivity.
  - right. reflexivity.
  - right. reflexivity.
Qed.

Lemma not_negative_square (d : float64) : not_negative (mul d d).
Proof.
  destruct d as [q| | |].
  - left. apply nonneg_square. discriminate.
  - left. apply nonneg_square. discriminate.
  - left. apply nonneg_square. discriminate.
  - right. reflexivity.
Qed.

Lemma not_negative_div (s : float64) (d : Q) :
  not_negative s -> 0 < d -> not_negative (div s (Finite d)).
Proof.
  intros [Hs| ->] Hd.
  - left. now apply nonneg_div.
  - right. reflexivity.
Qed.

Lemma squared_deviations_not_negative (a : list float64) :
  not_negative (squared_deviations a).
Proof.
  unfold squared_deviations.
  apply (np_sum_closed not_negative not_negative_zero not_negative_add).
  apply List.Forall_map. apply Forall_forall. intros v _.
  apply not_negative_square.
Qed.

(** The two divisors of a sample of at least two values. *)
Lemma divisors (x : list number) (a : list float64) :
  np_array x = Some a -> (2 <= length x)%nat ->
  exists d d' : Q,
    of_Z (Z.of_nat (length a)) = Finite d
    /\ of_Z (Z.of_nat (length a) - 1) = Finite d'
    /\ 1 <= d' /\ d' <= d.
Proof.
  intros H Hn. destruct (np_array_length x a H) as [El Hl]. rewrite <- El in *.
  destruct (of_Z_positive (Z.of_nat (length a)) ltac:(lia)) as (d & Ed & Hd).
  destruct (of_Z_positive (Z.of_nat (length a) - 1) ltac:(lia)) as (d' & Ed' & Hd').
  exists d, d'. repeat split; try assumption.
  apply (of_Z_le (Z.of_nat (length a) - 1) (Z.of_nat (length a))); [lia|assumption..].
Qed.

(** C1, as the code has it.  On every sample that NumPy stores as float64,
    [variance_n] returns the mean of the squared deviations from the sample
    mean and [variance_n1] their sum divided by n - 1, every sum,
    difference, product and quotient being rounded to binary64.  A sample of one finite value
    gives 0.  On [1, 2, 3] [variance_n] returns the binary64 value nearest to
    2/3, which is 6004799503160661 / 2^53, and [variance_n1] returns 1. *)
Theorem variance_n_and_n1_in_binary64 :
  (forall (x : list number) (a : list float64),
     np_array x = Some a ->
     variance_n x = Returns (variance_biased a)
     /\ variance_n1 x = Returns (variance_unbiased a))
  /\ (forall (v : number) (a : float64),
        stored v = Some a -> finite a -> variance_n [v] = Returns (Finite 0))
  /\ variance_n [Int 1; Int 2; Int 3] = Returns (round64 (Finite (2 # 3)))
  /\ round64 (Finite (2 # 3)) = Finite (6004799503160661 # 9007199254740992)
  /\ variance_n1 [Int 1; Int 2; Int 3] = Returns (Finite 1).
Proof.
  split; [|split; [|split; [|split]]].
  - intros x a H. split; [now apply variance_n_unfold | now apply variance_n1_unfold].
  - intros v a Hs [q ->]. now destruct (variance_n_one v (Finite q) Hs) as [-> _].
  - vm_compute. reflexivity.
  - vm_compute. reflexivity.
  - vm_compute. reflexivity.
Qed.

Lemma variance_n_and_n1_in_binary64_witness :
  (variance_n [Int 4; Float (Finite (5 # 2))]
   = Returns (variance_biased [Finite 4; Finite (5 # 2)])
   /\ variance_n1 [Int 4; Float (Finite (5 # 2))]
      = Returns (variance_unbiased [Finite 4; Finite (5 # 2)]))
  /\ variance_n [Int 7] = Returns (Finite 0).
Proof.
  destruct variance_n_and_n1_in_binary64 as (H1 & H2 & _).
  split.
  - apply (H1 [Int 4; Float (Finite (5 # 2))] [Finite 4; Finite (5 # 2)]).
    vm_compute. reflexivity.
  - apply (H2 (Int 7) (Finite 7)); [vm_compute; reflexivity|].
    exists 7. reflexivity.
Defined.

(** C1 as stated fails: the three values of [0.1, 0.1, 0.1] are
    stored as the same binary64 value, the mean of their squared deviations
    is 0, and [variance_n] returns 2^-112; on [1, 2, 3] it returns a value
    that is not 2/3. *)
Lemma variance_n_is_not_the_exact_mean :
  let tenth := Float (Finite (1 # 10)) in
  let d := 3602879701896397 # 36028797018963968 in
  np_array [tenth; tenth; tenth] = Some [Finite d; Finite d; Finite d]
  /\ Spec.variance_biased [d; d; d] == 0
  /\ variance_n [tenth; tenth; tenth]
     = Returns (Finite (1 # 5192296858534827628530496329220096))
  /\ ~ (1 # 5192296858534827628530496329220096) == 0
  /\ variance_n [Int 1; Int 2; Int 3]
     = Returns (Finite (6004799503160661 # 9007199254740992))
  /\ ~ (6004799503160661 # 9007199254740992) == 2 # 3.
Proof.
  cbv zeta. repeat split; try (vm_compute; reflexivity); intros H; discriminate H.
Qed.

(** C2, as the code has it.  For a sample of at least two finite values
    whose computed mean is a number, the value of [variance_n] is at most
    the value of [variance_n1]; when every computed deviation from the mean
    is 0, both are 0. *)
Theorem variance_n_le_variance_n1_in_binary64
  (x : list number) (a : list float64) :
  np_array x = Some a -> (2 <= length x)%nat ->
  Forall finite a -> sample_mean a <> NaN ->
  exists b u : float64,
    variance_n x = Returns b /\ variance_n1 x = Returns u
    /\ f_le b u = true
    /\ ((forall v, In v a -> sub v (sample_mean a) = Finite 0) ->
        b = Finite 0 /\ u = Finite 0).
Proof.
  intros H Hn Ha Hm.
  exists (variance_biased a), (variance_unbiased a).
  split; [now apply variance_n_unfold|]. split; [now apply variance_n1_unfold|].
  destruct (divisors x a H Hn) as (d & d' & Ed & Ed' & Hd' & Hdd).
  unfold variance_biased, variance_unbiased. rewrite Ed, Ed'.
  split.
  - apply div_antitone; [now apply rounded_squared_deviations_nonneg | lra | exact Hdd].
  - intros Hz.
    assert (E : squared_deviations a = Finite 0).
    { unfold squared_deviations. apply np_sum_zeros.
      apply List.Forall_map. apply Forall_forall. intros v Hv.
      rewrite (Hz v) by now apply list_elem_of_In. reflexivity. }
    rewrite E. split; apply div_zero; lra.
Qed.

Lemma variance_n_le_variance_n1_in_binary64_witness :
  exists b u : float64,
    variance_n [Int 3; Int 8; Int 5] = Returns b
    /\ variance_n1 [Int 3; Int 8; Int 5] = Returns u
    /\ f_le b u = true
    /\ ((forall v, In v [Finite 3; Finite 8; Finite 5] ->
           sub v (sample_mean [Finite 3; Finite 8; Finite 5]) = Finite 0) ->
        b = Finite 0 /\ u = Finite 0).
Proof.
  apply (variance_n_le_variance_n1_in_binary64
           [Int 3; Int 8; Int 5] [Finite 3; Finite 8; Finite 5]).
  - vm_compute. reflexivity.
  - cbn [length]. lia.
  - repeat constructor; eexists; reflexivity.
  - vm_compute. discriminate.
Defined.

(** C2 as stated fails in both directions: the three values of
    [0.1, 0.1, 0.1] are identical and the two estimates differ; the two
    values of [0.0, 2^-600] differ and the two estimates are equal (the
    squares of the deviations underflow to 0). *)
Lemma equality_does_not_follow_identical_values :
  let tenth := Float (Finite (1 # 10)) in
  let tiny := Float (Finite (2 ^ (-600))) in
  variance_n [tenth; tenth; tenth]
  = Returns (Finite (1 # 5192296858534827628530496329220096))
  /\ variance_n1 [tenth; tenth; tenth]
     = Returns (Finite (3 # 10384593717069655257060992658440192))
  /\ ~ (1 # 5192296858534827628530496329220096)
       == 3 # 10384593717069655257060992658440192
  /\ (exists q : Q, stored tiny = Some (Finite q) /\ 0 < q)
  /\ stored (Float (Finite 0)) = Some (Finite 0)
  /\ variance_n [Float (Finite 0); tiny] = Returns (Finite 0)
  /\ variance_n1 [Float (Finite 0); tiny] = Returns (Finite 0).
Proof.
  cbv zeta. repeat split; try (vm_compute; reflexivity).
  - intros H; discriminate H.
  - eexists. split; [vm_compute; reflexivity|]. reflexivity.
Qed.

(** C3, as the code has it.  On a sample of one value that NumPy stores as
    float64 (a float, or an int of at most 64 bits) [variance_n1] returns
    NaN: the division of line 111 is NumPy's, and it does not raise. *)
Theorem variance_n1_of_one_stored_value_is_nan (v : number) (a : float64) :
  stored v = Some a -> variance_n1 [v] = Returns NaN.
Proof. intros Hs. now destruct (variance_n_one v a Hs) as [_ ->]. Qed.

Lemma variance_n1_of_one_stored_value_is_nan_witness :
  variance_n1 [Float (Finite (5 # 2))] = Returns NaN.
Proof.
  apply (variance_n1_of_one_stored_value_is_nan _ (Finite (5 # 2))).
  vm_compute. reflexivity.
Defined.

(** C3 as stated fails: [variance_n1([5])] returns NaN to its
    caller. *)
Lemma variance_n1_of_5_returns_nan : variance_n1 [Int 5] = Returns NaN.
Proof. vm_compute. reflexivity. Qed.

(** C9, as the code has it.  For a sample of at least two values, the two
    estimators divide the same computed sum of squared deviations, by n and
    by n - 1; each quotient is rounded.  When the sum is finite (and n has at most 53
    bits), the values returned are the roundings of two exact quotients, of
    which the second is n / (n - 1) times the first. *)
Theorem estimators_divide_the_same_sum (x : list number) (a : list float64) :
  np_array x = Some a -> (2 <= length x)%nat ->
  let n := Z.of_nat (length x) in
  let sq := squared_deviations a in
  variance_n x = Returns (div sq (of_Z n))
  /\ variance_n1 x = Returns (div sq (of_Z (n - 1)))
  /\ (forall s : Q, sq = Finite s -> (n <= 2 ^ 53)%Z ->
        variance_n x = Returns (round64 (Finite (s / inject_Z n)))
        /\ variance_n1 x = Returns (round64 (Finite (s / inject_Z (n - 1))))
        /\ s / inject_Z (n - 1)
           == inject_Z n / inject_Z (n - 1) * (s / inject_Z n)).
Proof.
  intros H Hn n sq.
  destruct (np_array_length x a H) as [El Hl].
  assert (E1 : variance_n x = Returns (div sq (of_Z n))).
  { rewrite (variance_n_unfold x a H). unfold variance_biased, n, sq.
    now rewrite El. }
  assert (E2 : variance_n1 x = Returns (div sq (of_Z (n - 1)))).
  { rewrite (variance_n1_unfold x a H). unfold variance_unbiased, n, sq.
    now rewrite El. }
  split; [exact E1|]. split; [exact E2|].
  intros s Es Hb.
  assert (Hn1 : 0 < inject_Z (n - 1)).
  { change 0 with (inject_Z 0). rewrite <- Zlt_Qlt. unfold n. lia. }
  assert (Hn0 : 0 < inject_Z n).
  { change 0 with (inject_Z 0). rewrite <- Zlt_Qlt. unfold n. lia. }
  destruct (of_Z_exact n ltac:(unfold n; lia)) as (d & Ed & Hd).
  destruct (of_Z_exact (n - 1) ltac:(unfold n; lia)) as (d' & Ed' & Hd').
  rewrite E1, E2, Es, Ed, Ed'.
  rewrite (div_by_exact s d (inject_Z n) Hd) by lra.
  rewrite (div_by_exact s d' (inject_Z (n - 1)) Hd') by lra.
  repeat split. field. lra.
Qed.

Lemma estimators_divide_the_same_sum_witness :
  let sq := squared_deviations [Finite 3; Finite 8; Finite 5] in
  variance_n [Int 3; Int 8; Int 5] = Returns (div sq (of_Z 3))
  /\ variance_n1 [Int 3; Int 8; Int 5] = Returns (div sq (of_Z (3 - 1)))
  /\ (forall s : Q, sq = Finite s -> (3 <= 2 ^ 53)%Z ->
        variance_n [Int 3; Int 8; Int 5]
        = Returns (round64 (Finite (s / inject_Z 3)))
        /\ variance_n1 [Int 3; Int 8; Int 5]
           = Returns (round64 (Finite (s / inject_Z (3 - 1))))
        /\ s / inject_Z (3 - 1) == inject_Z 3 / inject_Z (3 - 1) * (s / inject_Z 3)).
Proof.
  apply (estimators_divide_the_same_sum
           [Int 3; Int 8; Int 5] [Finite 3; Finite 8; Finite 5]).
  - vm_compute. reflexivity.
  - cbn [length]. lia.
Defined.

(** C9 as stated fails: on [3, 8, 5], [variance_n1] returns
    7130699410003285 / 2^50 (6.333333333333333) and (3 / 2) times the value
    of [variance_n] is 3565349705001643 / 2^49 (6.333333333333334). *)
Lemma variance_n1_is_not_the_scaled_variance_n :
  variance_n [Int 3; Int 8; Int 5]
  = Returns (Finite (4753799606668857 # 1125899906842624))
  /\ variance_n1 [Int 3; Int 8; Int 5]
     = Returns (Finite (7130699410003285 # 1125899906842624))
  /\ mul (div (of_Z 3) (of_Z (3 - 1)))
       (Finite (4753799606668857 # 1125899906842624))
     = Finite (3565349705001643 # 562949953421312)
  /\ ~ (7130699410003285 # 1125899906842624)
       == 3565349705001643 # 562949953421312.
Proof.
  repeat split; try (vm_compute; reflexivity). intros H; discriminate H.
Qed.

(** C10, as the code has it.  On a non-empty sample stored as float64,
    [variance_n] never returns a negative value: what it returns is at least
    0, or it is NaN; the same holds of [variance_n1] on at least two values.  For finite
    values whose computed mean is a number the value is at least 0; the mean
    is a number when the sample has fewer than 8 values, and when no value
    is negative. *)
Theorem estimators_are_never_negative (x : list number) (a : list float64) :
  np_array x = Some a -> (1 <= length x)%nat ->
  (exists b, variance_n x = Returns b /\ not_negative b)
  /\ ((2 <= length x)%nat ->
      exists u, variance_n1 x = Returns u /\ not_negative u)
  /\ (Forall finite a -> sample_mean a <> NaN ->
      (exists b, variance_n x = Returns b /\ f_le (Finite 0) b = true)
      /\ ((2 <= length x)%nat ->
          exists u, variance_n1 x = Returns u /\ f_le (Finite 0) u = true))
  /\ (Forall finite a -> (length x < 8)%nat -> sample_mean a <> NaN)
  /\ (Forall nonneg a -> sample_mean a <> NaN).
Proof.
  intros H Hn. destruct (np_array_length x a H) as [El Hl].
  rewrite (variance_n_unfold x a H), (variance_n1_unfold x a H).
  unfold variance_biased, variance_unbiased.
  destruct (of_Z_positive (Z.of_nat (length a)) ltac:(lia)) as (d & Ed & Hd).
  rewrite Ed.
  split; [|split; [|split; [|split]]].
  - eexists. split; [reflexivity|].
    apply not_negative_div; [apply squared_deviations_not_negative | lra].
  - intros H2.
    destruct (of_Z_positive (Z.of_nat (length a) - 1) ltac:(lia)) as (d' & -> & Hd').
    eexists. split; [reflexivity|].
    apply not_negative_div; [apply squared_deviations_not_negative | lra].
  - intros Ha Hm. split.
    + eexists. split; [reflexivity|]. apply nonneg_le.
      apply nonneg_div; [now apply rounded_squared_deviations_nonneg | lra].
    + intros H2.
      destruct (of_Z_positive (Z.of_nat (length a) - 1) ltac:(lia)) as (d' & -> & Hd').
      eexists. split; [reflexivity|]. apply nonneg_le.
      apply nonneg_div; [now apply rounded_squared_deviations_nonneg | lra].
  - intros Ha H8. apply short_mean_not_nan; [exact Ha | lia].
  - intros Ha. apply nonneg_mean_not_nan; [exact Ha | lia].
Qed.

Lemma estimators_are_never_negative_witness :
  (exists b, variance_n [Int 3; Int 8; Int 5] = Returns b
             /\ f_le (Finite 0) b = true)
  /\ (exists u, variance_n1 [Int 3; Int 8; Int 5] = Returns u
                /\ f_le (Finite 0) u = true).
Proof.
  destruct (estimators_are_never_negative
              [Int 3; Int 8; Int 5] [Finite 3; Finite 8; Finite 5])
    as (_ & _ & H3 & H4 & _).
  - vm_compute. reflexivity.
  - cbn [length]. lia.
  - assert (Ha : Forall finite [Finite 3; Finite 8; Finite 5])
      by (repeat constructor; eexists; reflexivity).
    destruct (H3 Ha) as [Hb Hu].
    + apply (H4 Ha). cbn [length]. lia.
    + split; [exact Hb | apply Hu; cbn [length]; lia].
Defined.

(** C10 as stated fails: the sixteen finite values
    [2^1023, -2^1023, 0, 0, 0, 0, 0, 0] twice have a sum that NumPy
    accumulates in eight lanes, of which one overflows to +inf and another to
    -inf; the mean is NaN, and so is what [variance_n] returns, which is not
    at least 0. *)
Lemma variance_n_of_finite_values_can_be_nan :
  let big := Float (Finite (2 ^ 1023)) in
  let neg := Float (Finite (- 2 ^ 1023)) in
  let z := Float (Finite 0) in
  let x := [big; neg; z; z; z; z; z; z; big; neg; z; z; z; z; z; z] in
  (exists a, np_array x = Some a /\ Forall finite a)
  /\ variance_n x = Returns NaN
  /\ variance_n1 x = Returns NaN
  /\ f_le (Finite 0) NaN = false.
Proof.
  cbv zeta. split; [|repeat split; vm_compute; reflexivity].
  eexists. split; [vm_compute; reflexivity|].
  repeat constructor; eexists; reflexivity.
Qed.

End Values64.

(** ** The true variance in binary64 *)

(** Line 85 in binary64: on the population 1..20 every intermediate value of
    [np.var] is computed without a rounding error, and the result is 33.25,
    the value of the exact computation that the state of the script
    holds. *)
Theorem true_variance_is_exact_in_binary64 :
  exists a : list float64,
    Binary64.np_array (map Binary64.Int (py_range 1 21)) = Some a
    /\ Binary64.np_var a = Finite (133 # 4)
    /\ f_same (Binary64.np_var a) (np_var (np_array (ints (py_range 1 21))))
    /\ forall gen : nat -> nat,
         f_same (true_variance (initial_state gen)) (Binary64.np_var a).
Proof.
  eexists. split; [vm_compute; reflexivity|].
  split; [vm_compute; reflexivity|].
  split; [vm_compute; reflexivity|].
  intros gen. vm_compute. reflexivity.
Qed.
